(** * Style-function expressions: parser, [match] operator, serializer

    A shallow embedding of
    - [src/style-spec/function/expression.js]  (parsing context, literal and
      lambda expressions, [parseExpression], [serialize]),
    - [src/style-spec/function/definitions/match.js]  ([MatchExpression]),
    - the alternative drafts of [expression.js] (their [inferArrayType]
      routine, literal classes, [parseExpression] and [serialize]), and the
      [Color] class,
    followed by the properties established about them. *)

From Stdlib Require Import ZArith Ascii String.
From stdpp Require Import base gmap strings list pretty.

Set Warnings "-register-all".

Local Open Scope string_scope.
Local Open Scope list_scope.

(** ** JavaScript values

    The values the parser receives ([mixed]) and the values an evaluator
    returns.  Numbers are the integer-valued ones; objects keep their own
    properties as an association list; [RColor] is an instance of the
    [Color] class, whose [value] field is the array [[r, g, b, a]]. *)

Inductive Raw : Type :=
  | RUndefined
  | RNull
  | RString (s : string)
  | RBoolean (b : bool)
  | RNumber (n : Z)
  | RColor (r g b a : Z)
  | RArray (items : list Raw)
  | RObject (props : list (string * Raw)).

(** The class of part [color.js]: [new Color(r, g, b, a = 1)]. *)
Definition Color (r g b : Z) (a : option Z) : Raw :=
  RColor r g b (default 1%Z a).

Definition Color_value (v : Raw) : list Raw :=
  match v with
  | RColor r g b a => [RNumber r; RNumber g; RNumber b; RNumber a]
  | _ => []
  end.

(** [typeof x]. *)
Definition typeof (x : Raw) : string :=
  match x with
  | RUndefined => "undefined"
  | RNull => "object"
  | RString _ => "string"
  | RBoolean _ => "boolean"
  | RNumber _ => "number"
  | RColor _ _ _ _ => "object"
  | RArray _ => "object"
  | RObject _ => "object"
  end.

(** [String(x)], which is also the conversion applied by [s + x]: an array
    joins the conversions of its items with a comma, [null] and [undefined]
    items giving the empty string. *)
Fixpoint String_ (x : Raw) : string :=
  match x with
  | RUndefined => "undefined"
  | RNull => "null"
  | RString s => s
  | RBoolean true => "true"
  | RBoolean false => "false"
  | RNumber n => pretty n
  | RColor _ _ _ _ => "[object Object]"
  | RObject _ => "[object Object]"
  | RArray items =>
      let item_string (y : Raw) : string :=
        match y with
        | RUndefined | RNull => ""
        | _ => String_ y
        end in
      (fix join (l : list Raw) : string :=
         match l with
         | [] => ""
         | [y] => item_string y
         | y :: rest => item_string y +:+ "," +:+ join rest
         end) items
  end.

(** ** Types *)

(** Modelled from the spec: [types.js] is not among the sources.  These are
    the names of the primitive types of section 3 of the specification
    ([Null], [String], [Number], [Boolean], [Object], [Color] and the
    dynamic [Value]). *)
Inductive PrimitiveName : Type :=
  | Null | String_t | Number | Boolean | Object | Color_t | Value.

Global Instance PrimitiveName_eq_dec : EqDecision PrimitiveName.
Proof. solve_decision. Defined.

(** Modelled from the spec: [types.js] is not among the sources.  Section 3
    of the specification gives the closed set of type descriptors; the
    constructors take their arguments in the order of the calls in the
    sources: [array(itemType, N)], [lambda(result, ...params)],
    [nargs(N, ...types)], [typename(name)]. *)
Inductive Ty : Type :=
  | primitive (p : PrimitiveName)
  | typename (name : string)
  | array (itemType : Ty) (N : option nat)
  | nargs (N : option nat) (types : list Ty)
  | lambda (result : Ty) (params : list Ty).

Abbreviation NullType := (primitive Null).
Abbreviation StringType := (primitive String_t).
Abbreviation NumberType := (primitive Number).
Abbreviation BooleanType := (primitive Boolean).
Abbreviation ObjectType := (primitive Object).
Abbreviation ColorType := (primitive Color_t).
Abbreviation ValueType := (primitive Value).

(** [Infinity] as a repetition count. *)
Abbreviation Infinity := (@None nat).

(** [a === b] on type descriptors reaching [inferArrayType]: these are the
    shared primitive descriptors, identical exactly when they are the same
    primitive. *)
Definition Ty_same (a b : Ty) : bool :=
  match a, b with
  | primitive p, primitive q => bool_decide (p = q)
  | _, _ => false
  end.

(** The fixed length recorded in an array type, if any. *)
Definition fixed_length (t : Ty) : option nat :=
  match t with array _ N => N | _ => None end.

Definition item_type (t : Ty) : option Ty :=
  match t with array i _ => Some i | _ => None end.

(** Whether a type variable occurs in a type. *)
Fixpoint is_generic (t : Ty) : bool :=
  match t with
  | primitive _ => false
  | typename _ => true
  | array i _ => is_generic i
  | nargs _ ts => existsb is_generic ts
  | lambda r ps => is_generic r || existsb is_generic ps
  end.

(** ** Array literal type inference ([inferArrayType])

    The routine has the same text in both drafts that define it
    ([ArrayLiteral.inferArrayType] and [LiteralExpression.inferArrayType]). *)

(** The table [primitiveTypes], indexed by [typeof item]. *)
Definition primitiveTypes (tag : string) : option Ty :=
  if String.eqb tag "string" then Some StringType
  else if String.eqb tag "number" then Some NumberType
  else if String.eqb tag "boolean" then Some BooleanType
  else None.

(** The [for (const item of value)] loop; the accumulator is the variable
    [itemType], [None] while it is still undefined. *)
Fixpoint inferArrayType_loop (itemType : option Ty) (value : list Raw)
  : option Ty :=
  match value with
  | [] => itemType
  | item :: rest =>
      match primitiveTypes (typeof item), itemType with
      | Some t, None => inferArrayType_loop (Some t) rest
      | Some t, Some it =>
          if Ty_same it t then inferArrayType_loop itemType rest
          else Some ValueType
      | None, _ => Some ValueType
      end
  end.

Definition inferArrayType (value : list Raw) : Ty :=
  array (default ValueType (inferArrayType_loop None value))
        (Some (length value)).

(** ** Parsing errors and outcomes *)

(** [class ParsingError extends Error]: the location [key] and the
    message. *)
Record ParsingError : Type := mkParsingError {
  ParsingError_key : string;
  ParsingError_message : string
}.

(** What a call produces: the returned value, a thrown [ParsingError], or
    [OutOfFuel] when the recursion budget of the model is exhausted. *)
Inductive Outcome (A : Type) : Type :=
  | Ok (a : A)
  | Throw (e : ParsingError)
  | OutOfFuel.
Arguments Ok {A} a.
Arguments Throw {A} e.
Arguments OutOfFuel {A}.

Definition throw {A : Type} (key message : string) : Outcome A :=
  Throw (mkParsingError key message).

Definition bind {A B : Type} (m : Outcome A) (f : A -> Outcome B)
  : Outcome B :=
  match m with
  | Ok a => f a
  | Throw e => Throw e
  | OutOfFuel => OutOfFuel
  end.

Notation "'do' x <- m 'in' k" := (bind m (fun x => k))
  (at level 10, x binder, m at level 100, k at level 200, only parsing).

(** The double-quote character, for the messages that contain it. *)
Definition dq : string := String (ascii_of_nat 34) EmptyString.

(** ** Expression classes and the syntax tree *)

(** Which static [parse] a class runs: the default one of
    [LambdaExpression], or the override of [MatchExpression]. *)
Inductive ParseKind : Type := DefaultParse | MatchParse.

(** A subclass of [LambdaExpression], as stored in the registry. *)
Record ExprClass : Type := mkExprClass {
  getName : string;
  getType : Ty;
  parse_kind : ParseKind
}.

(** [class MatchExpression extends LambdaExpression]. *)
Definition MatchExpression : ExprClass := {|
  getName := "match";
  getType := lambda (typename "T")
               [typename "U";
                nargs Infinity [array (typename "U") None; typename "T"];
                typename "T"];
  parse_kind := MatchParse
|}.

(** A node is a [LiteralExpression] or an instance of some subclass [cls]
    of [LambdaExpression] (its [constructor]). *)
Inductive Expression : Type :=
  | LiteralExpression (key : string) (type : Ty) (value : Raw)
  | LambdaExpression (cls : ExprClass) (key : string) (type : Ty)
                     (args : list Expression).

Definition Expression_key (e : Expression) : string :=
  match e with
  | LiteralExpression k _ _ => k
  | LambdaExpression _ k _ _ => k
  end.

Definition Expression_type (e : Expression) : Ty :=
  match e with
  | LiteralExpression _ t _ => t
  | LambdaExpression _ _ t _ => t
  end.

(** [applyType(type, args)]: a new node of the same class and key. *)
Definition applyType (e : Expression) (type : Ty) (args : list Expression)
  : Expression :=
  match e with
  | LambdaExpression cls k _ _ => LambdaExpression cls k type args
  | LiteralExpression _ _ _ => e
  end.

(** ** Parsing context *)

(** [path.join('.')]. *)
Fixpoint join_dot (path : list nat) : string :=
  match path with
  | [] => ""
  | [i] => pretty i
  | i :: rest => pretty i +:+ "." +:+ join_dot rest
  end.

(** The registry [definitions] is the finite map of its own properties. *)
Record ParsingContext : Type := mkParsingContext {
  definitions : gmap string ExprClass;
  path : list nat;
  key : string;
  ancestors : list string
}.

(** The constructor, with [path] and [ancestors] defaulting to [[]]. *)
Definition ParsingContext_new (definitions : gmap string ExprClass)
    (path : list nat) (ancestors : list string) : ParsingContext :=
  {| definitions := definitions;
     path := path;
     key := join_dot path;
     ancestors := ancestors |}.

Definition concat (context : ParsingContext) (index : nat)
    (expressionName : option string) : ParsingContext :=
  ParsingContext_new
    (definitions context)
    (path context ++ [index])
    (match expressionName with
     | Some name =>
         if String.eqb name "" then ancestors context
         else ancestors context ++ [name]
     | None => ancestors context
     end).

(** ** Values and their types *)

(** Modelled from the spec: [isValue] of [values.js], which is not among
    the sources.  It recognises the closed set of values of section 3:
    null, strings, numbers, booleans, colours, and arrays and objects of
    values. *)
Fixpoint isValue (x : Raw) : bool :=
  match x with
  | RUndefined => false
  | RNull | RString _ | RBoolean _ | RNumber _ | RColor _ _ _ _ => true
  | RArray items => forallb isValue items
  | RObject props =>
      (fix all (l : list (string * Raw)) : bool :=
         match l with
         | [] => true
         | (_, v) :: rest => isValue v && all rest
         end) props
  end.

(** Modelled from the spec: [typeOf] of [values.js], which is not among
    the sources.  A scalar has its primitive type, an array the type that
    [inferArrayType] infers (section 4.2) and an object the [Object] type;
    [undefined] is not a value and never reaches it. *)
Definition typeOf (value : Raw) : Ty :=
  match value with
  | RNull => NullType
  | RString _ => StringType
  | RBoolean _ => BooleanType
  | RNumber _ => NumberType
  | RColor _ _ _ _ => ColorType
  | RArray items => inferArrayType items
  | RObject _ => ObjectType
  | RUndefined => ValueType
  end.

(** ** Literal expressions *)

(** [LiteralExpression.parse(args, context)]. *)
Definition LiteralExpression_parse (args : list Raw)
    (context : ParsingContext) : Outcome Expression :=
  match args with
  | [arg0] =>
      if negb (isValue arg0) then throw (key context) "invalid value"
      else
        let value := arg0 in
        let type := typeOf value in
        Ok (LiteralExpression (key context) type value)
  | _ =>
      throw (key context)
        ("'literal' expression requires exactly one argument, but found "
         +:+ pretty (length args) +:+ " instead.")
  end.

(** ** Lambda expressions *)

(** The loop of the default parse: [parsedArgs] is the array built so
    far, each argument being parsed at
    [context.concat(1 + parsedArgs.length, op)]. *)
Fixpoint LambdaExpression_parse_loop
    (parseExpression : Raw -> ParsingContext -> Outcome Expression)
    (op : string) (context : ParsingContext)
    (parsedArgs : list Expression) (args : list Raw)
  : Outcome (list Expression) :=
  match args with
  | [] => Ok parsedArgs
  | arg :: rest =>
      do e <- parseExpression arg
             (concat context (1 + length parsedArgs) (Some op)) in
      LambdaExpression_parse_loop parseExpression op context
        (parsedArgs ++ [e]) rest
  end.

(** [LambdaExpression.parse(args, context)], the default parse, run on the
    class [this]. *)
Definition LambdaExpression_parse
    (parseExpression : Raw -> ParsingContext -> Outcome Expression)
    (this : ExprClass) (args : list Raw) (context : ParsingContext)
  : Outcome Expression :=
  let op := getName this in
  do parsedArgs <- LambdaExpression_parse_loop parseExpression op context
                  [] args in
  Ok (LambdaExpression this (key context) (getType this) parsedArgs).

(** ** The [match] expression: parsing *)

Definition match_inputs_message : string :=
  "Match inputs must be literal primitive values or arrays of literal primitive values.".

(** The inner loop over [inputGroup], from index [j]. *)
Fixpoint MatchExpression_check_inputGroup (context : ParsingContext)
    (i j : nat) (inputGroup : list Raw) : Outcome unit :=
  match inputGroup with
  | [] => Ok tt
  | inputValue :: rest =>
      if String.eqb (typeof inputValue) "object" then
        throw (key context +:+ "." +:+ pretty (i + 1) +:+ "." +:+ pretty j)
              match_inputs_message
      else MatchExpression_check_inputGroup context i (S j) rest
  end.

(** [Array.isArray(arg) ? arg : [arg]]. *)
Definition inputGroup_of (arg : Raw) : list Raw :=
  match arg with
  | RArray items => items
  | _ => [arg]
  end.

(** The loop [for (let i = 1; i < args.length - 1; i++)].  [rest] is
    [args.slice(i)], so the loop runs while [rest] has an element after its
    first; [normalizedArgs] is the array built so far. *)
Fixpoint MatchExpression_parse_loop (context : ParsingContext) (i : nat)
    (rest : list Raw) (normalizedArgs : list Raw) : Outcome (list Raw) :=
  match rest with
  | arg :: ((_ :: _) as rest') =>
      if (i mod 2 =? 1)%nat then
        let inputGroup := inputGroup_of arg in
        if (length inputGroup =? 0)%nat then
          throw (key context +:+ "." +:+ pretty (i + 1))
                "Expected at least one input value."
        else
          do _ <- MatchExpression_check_inputGroup context i 0 inputGroup in
          MatchExpression_parse_loop context (S i) rest'
            (normalizedArgs ++ [RArray [RString "literal"; RArray inputGroup]])
      else
        MatchExpression_parse_loop context (S i) rest'
          (normalizedArgs ++ [arg])
  | _ => Ok normalizedArgs
  end.

(** [MatchExpression.parse(args, context)], ending in [super.parse]. *)
Definition MatchExpression_parse
    (parseExpression : Raw -> ParsingContext -> Outcome Expression)
    (this : ExprClass) (args : list Raw) (context : ParsingContext)
  : Outcome Expression :=
  if (length args <? 2)%nat then
    throw (key context)
      ("Expected at least 2 arguments, but found only "
       +:+ pretty (length args) +:+ ".")
  else
    do normalizedArgs <- MatchExpression_parse_loop context 1 (drop 1 args)
                        [default RUndefined (args !! 0%nat)] in
    let normalizedArgs :=
      normalizedArgs ++ [default RUndefined (last args)] in
    LambdaExpression_parse parseExpression this normalizedArgs context.

(** The static [parse] that the class [Expr] answers to. *)
Definition ExprClass_parse
    (parseExpression : Raw -> ParsingContext -> Outcome Expression)
    (Expr : ExprClass) (args : list Raw) (context : ParsingContext)
  : Outcome Expression :=
  match parse_kind Expr with
  | DefaultParse => LambdaExpression_parse parseExpression Expr args context
  | MatchParse => MatchExpression_parse parseExpression Expr args context
  end.

(** ** [parseExpression] *)

Definition literal_hint : string :=
  " If you wanted a literal array, use [" +:+ dq +:+ "literal" +:+ dq.

(** One unfolding of [parseExpression(expr, context)]; [self] stands for
    the recursive calls. *)
Definition parseExpression_body
    (self : Raw -> ParsingContext -> Outcome Expression)
    (expr : Raw) (context : ParsingContext) : Outcome Expression :=
  let key := key context in
  match expr with
  | RNull => Ok (LiteralExpression key NullType expr)
  | RUndefined => throw key "'undefined' value invalid. Use null instead."
  | RString _ => Ok (LiteralExpression key StringType expr)
  | RBoolean _ => Ok (LiteralExpression key BooleanType expr)
  | RNumber _ => Ok (LiteralExpression key NumberType expr)
  | RArray [] =>
      throw key
        ("Expected an array with at least one element."
         +:+ literal_hint +:+ ", []].")
  | RArray (op :: args) =>
      match op with
      | RString name =>
          if String.eqb name "literal" then
            LiteralExpression_parse args context
          else
            match definitions context !! name with
            | None =>
                throw (key +:+ ".0")
                  ("Unknown expression " +:+ dq +:+ name +:+ dq +:+ "."
                   +:+ literal_hint +:+ ", [...]].")
            | Some Expr => ExprClass_parse self Expr args context
            end
      | _ =>
          throw (key +:+ ".0")
            ("Expression name must be a string, but found "
             +:+ typeof op +:+ " instead."
             +:+ literal_hint +:+ ", [...]].")
      end
  | RColor _ _ _ _ | RObject _ =>
      throw key
        ("Bare objects invalid. Use [" +:+ dq +:+ "literal" +:+ dq
         +:+ ", {...}] instead.")
  end.

(** [parseExpression], with [fuel] bounding the depth of the recursion. *)
Fixpoint parseExpression (fuel : nat) (expr : Raw)
    (context : ParsingContext) : Outcome Expression :=
  match fuel with
  | O => OutOfFuel
  | S fuel' => parseExpression_body (parseExpression fuel') expr context
  end.

(** ** Serialization *)

(** The name printed after the operator when types are requested:
    [this.type.kind === 'lambda' ? this.type.result.name : this.type.name],
    the [name] of a type being the parameter [type_name]. *)
Definition serialized_type_name (type_name : Ty -> string) (type : Ty)
  : string :=
  match type with
  | lambda result _ => type_name result
  | _ => type_name type
  end.

(** [serialize(withTypes)] of both node classes. *)
Fixpoint serialize (type_name : Ty -> string) (withTypes : bool)
    (e : Expression) : Raw :=
  match e with
  | LiteralExpression _ _ value =>
      match value with
      | RNull | RString _ | RBoolean _ | RNumber _ => value
      | RColor _ _ _ _ => RArray (RString "rgba" :: Color_value value)
      | _ => RArray [RString "literal"; value]
      end
  | LambdaExpression cls _ type args =>
      let name := getName cls in
      let type := serialized_type_name type_name type in
      let args := List.map (serialize type_name withTypes) args in
      RArray (RString (name +:+ (if withTypes then ": " +:+ type else ""))
              :: args)
  end.

(** ** Compiled expressions

    What an expression, or the body of a function, computes: a function
    from the evaluation record (of an arbitrary type [Env]) to the value
    returned or the exception thrown. *)

Inductive EvalResult : Type :=
  | Returned (v : Raw)
  | Thrown (error : string).

Definition JS (Env : Type) : Type := Env -> EvalResult.

(** [compile] produces JavaScript source text, and
    [MatchExpression.prototype.compile] splices the text of an argument at
    two kinds of places: after [var input =], where the text is read as an
    expression, and after [() =>], where it is read as the body of an arrow
    function.  That body is the same expression unless the text starts with
    a brace: then it is a block, and calling the function returns what the
    block returns.  A text is represented by what it computes at each of the
    two places; [None] stands for a text that cannot be read there, which
    makes the whole source around it a [SyntaxError]. *)
Record Source (Env : Type) : Type := mkSource {
  as_expression : option (JS Env);
  as_arrow_body : option (JS Env)
}.
Arguments mkSource {Env}.
Arguments as_expression {Env}.
Arguments as_arrow_body {Env}.

(** The text [`() => ${text}`] of a thunk, represented by the function it
    creates, if it can be read. *)
Definition arrow {Env : Type} (text : Source Env) : option (JS Env) :=
  as_arrow_body text.

Record CompiledExpression (Env : Type) : Type := mkCompiledExpression {
  js : Source Env;
  type : Ty;
  isFeatureConstant : bool;
  isZoomConstant : bool;
  expression : Expression
}.
Arguments mkCompiledExpression {Env}.
Arguments js {Env}.
Arguments type {Env}.
Arguments isFeatureConstant {Env}.
Arguments isZoomConstant {Env}.
Arguments expression {Env}.

(** What running [compile] produces: its return value or the exception
    ([assert] failure, property read on [undefined]) that aborts it. *)
Inductive CompileResult (A : Type) : Type :=
  | Compiled (a : A)
  | CompileError (error : string).
Arguments Compiled {A} a.
Arguments CompileError {A} error.

(** The field [value] of a node ([undefined] on a lambda expression). *)
Definition Expression_value (e : Expression) : Raw :=
  match e with
  | LiteralExpression _ _ value => value
  | LambdaExpression _ _ _ _ => RUndefined
  end.

(** ** The [match] expression: compilation *)

(** The key [`${typeof value}-${String(value)}`] under which a label is
    entered in [inputMap]. *)
Definition compile_key (value : Raw) : string :=
  typeof value +:+ "-" +:+ String_ value.

(** Modelled from the spec: [this.typeOf] belongs to the evaluation context
    of the compiler driver, which is not among the sources.  It names the
    runtime kind of a value (section 3: Null, String, Number, Boolean, Color,
    Object, Array).  [undefined] is not one of these values; the tag chosen
    for it is used by no statement below. *)
Definition this_typeOf (x : Raw) : string :=
  match x with
  | RNull => "Null"
  | RString _ => "String"
  | RNumber _ => "Number"
  | RBoolean _ => "Boolean"
  | RColor _ _ _ _ => "Color"
  | RArray _ => "Array"
  | RObject _ => "Object"
  | RUndefined => "Undefined"
  end.

Definition ascii_toLowerCase (c : ascii) : ascii :=
  let n := nat_of_ascii c in
  if ((65 <=? n) && (n <=? 90))%nat then ascii_of_nat (n + 32) else c.

(** [s.toLowerCase()] on ASCII text. *)
Fixpoint toLowerCase (s : string) : string :=
  match s with
  | EmptyString => EmptyString
  | String c rest => String (ascii_toLowerCase c) (toLowerCase rest)
  end.

(** The key [this.typeOf(input).toLowerCase() + '-' + input] looked up at
    evaluation time. *)
Definition runtime_key (input : Raw) : string :=
  toLowerCase (this_typeOf input) +:+ "-" +:+ String_ input.

(** The first loop of [compile], [for (let i = 1; i < args.length - 1; i++)],
    with [rest = args.slice(i)]: label literals go to [inputs], the text
    [`() => ${args[i].js}`] made of each output goes to [outputs]. *)
Fixpoint MatchExpression_compile_loop {Env : Type} (i : nat)
    (rest : list (CompiledExpression Env))
    (inputs : list Expression) (outputs : list (option (JS Env)))
  : CompileResult (list Expression * list (option (JS Env))) :=
  match rest with
  | arg :: ((_ :: _) as rest') =>
      if (i mod 2 =? 1)%nat then
        match expression arg with
        | LiteralExpression _ _ _ =>
            MatchExpression_compile_loop (S i) rest'
              (inputs ++ [expression arg]) outputs
        | LambdaExpression _ _ _ _ => CompileError "AssertionError"
        end
      else
        MatchExpression_compile_loop (S i) rest' inputs
          (outputs ++ [arrow (js arg)])
  | _ => Compiled (inputs, outputs)
  end.

(** The arrays [inputs] and [outputs] once the 'otherwise' thunk has been
    pushed. *)
Definition MatchExpression_branches {Env : Type}
    (args : list (CompiledExpression Env))
  : CompileResult (list Expression * list (option (JS Env))) :=
  match MatchExpression_compile_loop 1 (drop 1 args) [] [] with
  | Compiled (inputs, outputs) =>
      match last args with
      | Some otherwise =>
          Compiled (inputs, outputs ++ [arrow (js otherwise)])
      | None => CompileError "TypeError"
      end
  | CompileError e => CompileError e
  end.

(** [for (const value of values) inputMap[key] = i]. *)
Definition MatchExpression_add_values (i : nat) (values : list Raw)
    (inputMap : gmap string nat) : gmap string nat :=
  foldl (fun m value => <[compile_key value := i]> m) inputMap values.

(** The loop [for (let i = 0; i < inputs.length; i++)] that fills
    [inputMap], with [rest = inputs.slice(i)]. *)
Fixpoint MatchExpression_inputMap_loop (i : nat) (rest : list Expression)
    (inputMap : gmap string nat) : CompileResult (gmap string nat) :=
  match rest with
  | [] => Compiled inputMap
  | e :: rest' =>
      match Expression_value e with
      | RArray values =>
          MatchExpression_inputMap_loop (S i) rest'
            (MatchExpression_add_values i values inputMap)
      | _ => CompileError "AssertionError"
      end
  end.

Definition MatchExpression_inputMap (inputs : list Expression)
  : CompileResult (gmap string nat) :=
  MatchExpression_inputMap_loop 0 inputs ∅.

(** What [compile] splices into the text of the generated function: the
    texts of the thunks [outputs], the table [inputMap] (written out with
    [JSON.stringify], read back as an object literal whose property names
    all contain a dash) and the text of [input]. *)
Record MatchJS (Env : Type) : Type := mkMatchJS {
  outputs : list (option (JS Env));
  inputMap : gmap string nat;
  input : Source Env
}.
Arguments mkMatchJS {Env}.
Arguments outputs {Env}.
Arguments inputMap {Env}.
Arguments input {Env}.

(** The call [outputs[k]()] on the array [thunks] of the functions that
    the texts [outputs] create.  Beside its result it reports the index of
    the thunk it has run; calling a missing element throws. *)
Definition invoke {Env : Type} (thunks : list (JS Env)) (k : nat)
    (env : Env) : list nat * EvalResult :=
  match (thunks !! k : option (JS Env)) with
  | Some thunk => ([k], thunk env)
  | None => ([], Thrown "TypeError")
  end.

(** The generated source, run on the record [env]: the list of the thunks
    it has run, in order, and its result.  When the text of the input or of
    a thunk cannot be read the source is a [SyntaxError] and nothing runs. *)
Definition MatchJS_run {Env : Type} (m : MatchJS Env) (env : Env)
  : list nat * EvalResult :=
  match as_expression (input m), mapM id (outputs m) with
  | Some input, Some thunks =>
      match input env with
      | Thrown error => ([], Thrown error)
      | Returned input =>
          let outputIndex := inputMap m !! runtime_key input in
          match outputIndex with
          | Some k => invoke thunks k env
          | None => invoke thunks (length (outputs m) - 1) env
          end
      end
  | _, _ => ([], Thrown "SyntaxError")
  end.

(** The source text returned by [compile].  It starts with a parenthesis,
    so it reads as the same expression at both places; it can be read when
    the texts spliced into it can. *)
Definition MatchJS_js {Env : Type} (m : MatchJS Env) : Source Env :=
  let text :=
    match as_expression (input m), mapM id (outputs m) with
    | Some _, Some _ => Some (fun env => snd (MatchJS_run m env))
    | _, _ => None
    end in
  mkSource text text.

(** [MatchExpression.prototype.compile(args)]. *)
Definition MatchExpression_compile {Env : Type}
    (args : list (CompiledExpression Env)) : CompileResult (MatchJS Env) :=
  match args !! 0%nat with
  | None => CompileError "TypeError"
  | Some arg0 =>
      let input := js arg0 in
      match MatchExpression_branches args with
      | CompileError e => CompileError e
      | Compiled (inputs, outputs) =>
          match MatchExpression_inputMap inputs with
          | CompileError e => CompileError e
          | Compiled inputMap => Compiled (mkMatchJS outputs inputMap input)
          end
      end
  end.

(** What the text [JSON.stringify(x)] evaluates to: a [Color] is written
    as the plain object of its own property [value], an [undefined] item of
    an array as [null], and a property whose value is [undefined] is left
    out. *)
Fixpoint JSON_value (x : Raw) : Raw :=
  match x with
  | RColor _ _ _ _ => RObject [("value", RArray (Color_value x))]
  | RArray items =>
      RArray (List.map (fun y => match y with
                                 | RUndefined => RNull
                                 | _ => JSON_value y
                                 end) items)
  | RObject props =>
      RObject
        ((fix keep (l : list (string * Raw)) : list (string * Raw) :=
            match l with
            | [] => []
            | (_, RUndefined) :: rest => keep rest
            | (name, y) :: rest => (name, JSON_value y) :: keep rest
            end) props)
  | _ => x
  end.

(** [LiteralExpression.prototype.compile()]: the text
    [JSON.stringify(this.value)].  As an expression it evaluates to the
    value written out.  After [() =>] the text of an object starts with a
    brace and is read as a block: [{}] is the empty block, so the function
    returns [undefined]; a block that starts with a property name and a
    colon cannot be read. *)
Definition LiteralExpression_compile {Env : Type} (e : Expression)
  : Source Env :=
  let value := JSON_value (Expression_value e) in
  mkSource
    (Some (fun _ => Returned value))
    (match value with
     | RObject [] => Some (fun _ => Returned RUndefined)
     | RObject (_ :: _) => None
     | _ => Some (fun _ => Returned value)
     end).

(** * The drafts of [expression.js] in the second source part

    The part holds two further drafts of [expression.js].  Both have the
    parsing context, [LambdaExpression] and the overall shape of
    [parseExpression] of the file above; they differ in how literals are
    parsed and represented.  In the first draft a literal is an instance of
    [PrimitiveLiteral], [ArrayLiteral] or [ObjectLiteral]; in the second
    it is an instance of [LiteralExpression] itself, which has no
    [serialize] of its own.  The type of a literal node can be [undefined]
    there, hence [option Ty]. *)

Module Part001.

(** The class a literal node is an instance of. *)
Inductive LiteralClass : Type :=
  | PrimitiveLiteral
  | ArrayLiteral
  | ObjectLiteral
  | LiteralExpression.

Inductive Expression : Type :=
  | Literal (cls : LiteralClass) (key : string) (type : option Ty)
            (value : Raw)
  | LambdaExpression (cls : ExprClass) (key : string) (type : Ty)
                     (args : list Expression).

(** The loop of the default parse, as in the file above. *)
Fixpoint LambdaExpression_parse_loop
    (parseExpression : Raw -> ParsingContext -> Outcome Expression)
    (op : string) (context : ParsingContext)
    (parsedArgs : list Expression) (args : list Raw)
  : Outcome (list Expression) :=
  match args with
  | [] => Ok parsedArgs
  | arg :: rest =>
      do e <- parseExpression arg
             (concat context (1 + length parsedArgs) (Some op)) in
      LambdaExpression_parse_loop parseExpression op context
        (parsedArgs ++ [e]) rest
  end.

(** [LambdaExpression.parse(args, context)], run on the class [this]. *)
Definition LambdaExpression_parse
    (parseExpression : Raw -> ParsingContext -> Outcome Expression)
    (this : ExprClass) (args : list Raw) (context : ParsingContext)
  : Outcome Expression :=
  let op := getName this in
  do parsedArgs <- LambdaExpression_parse_loop parseExpression op context
                  [] args in
  Ok (LambdaExpression this (key context) (getType this) parsedArgs).

(** [MatchExpression.parse(args, context)], run against these drafts. *)
Definition MatchExpression_parse
    (parseExpression : Raw -> ParsingContext -> Outcome Expression)
    (this : ExprClass) (args : list Raw) (context : ParsingContext)
  : Outcome Expression :=
  if (length args <? 2)%nat then
    throw (key context)
      ("Expected at least 2 arguments, but found only "
       +:+ pretty (length args) +:+ ".")
  else
    do normalizedArgs <- MatchExpression_parse_loop context 1 (drop 1 args)
                        [default RUndefined (args !! 0%nat)] in
    let normalizedArgs :=
      normalizedArgs ++ [default RUndefined (last args)] in
    LambdaExpression_parse parseExpression this normalizedArgs context.

(** The static [parse] that the class [Expr] answers to. *)
Definition ExprClass_parse
    (parseExpression : Raw -> ParsingContext -> Outcome Expression)
    (Expr : ExprClass) (args : list Raw) (context : ParsingContext)
  : Outcome Expression :=
  match parse_kind Expr with
  | DefaultParse => LambdaExpression_parse parseExpression Expr args context
  | MatchParse => MatchExpression_parse parseExpression Expr args context
  end.

(** ** The draft with [PrimitiveLiteral], [ArrayLiteral], [ObjectLiteral] *)

(** [PrimitiveLiteral.parse(value, context)]. *)
Definition PrimitiveLiteral_parse (value : Raw) (context : ParsingContext)
  : Expression :=
  let type :=
    match value with
    | RNull => Some NullType
    | _ => primitiveTypes (typeof value)
    end in
  Literal PrimitiveLiteral (key context) type value.

(** [ArrayLiteral.parse(value, context)]. *)
Definition ArrayLiteral_parse (value : list Raw) (context : ParsingContext)
  : Expression :=
  let arrayType := inferArrayType value in
  Literal ArrayLiteral (key context) (Some arrayType) (RArray value).

(** [ObjectLiteral.parse(value, context)]; the constructor sets the type. *)
Definition ObjectLiteral_parse (value : Raw) (context : ParsingContext)
  : Expression :=
  Literal ObjectLiteral (key context) (Some ObjectType) value.

(** One unfolding of [parseExpression(expr, context)] of this draft. *)
Definition parseExpression_body
    (self : Raw -> ParsingContext -> Outcome Expression)
    (expr : Raw) (context : ParsingContext) : Outcome Expression :=
  let k := key context in
  match expr with
  | RNull | RUndefined => Ok (PrimitiveLiteral_parse expr context)
  | RString _ | RNumber _ | RBoolean _ =>
      Ok (PrimitiveLiteral_parse expr context)
  | RColor _ _ _ _ | RObject _ =>
      throw k ("Expected an array, but found " +:+ typeof expr +:+ " instead.")
  | RArray items =>
      let op := default RUndefined (items !! 0%nat) in
      match op with
      | RString name =>
          if String.eqb name "literal" then
            if negb (length items =? 2)%nat then
              throw k
                ("'literal' expression requires exactly one argument, but found "
                 +:+ pretty (length items - 1) +:+ " instead.")
            else
              let argcontext := concat context 1 (Some "literal") in
              let arg := default RUndefined (items !! 1%nat) in
              match arg with
              | RArray value => Ok (ArrayLiteral_parse value argcontext)
              | RObject _ | RColor _ _ _ _ =>
                  Ok (ObjectLiteral_parse arg argcontext)
              | _ =>
                  throw (key argcontext)
                    ("Expected argument to 'literal' to be an array or object, but found "
                     +:+ typeof arg +:+ " instead.")
              end
          else
            match definitions context !! name with
            | None =>
                throw (k +:+ ".0")
                  ("Unknown expression " +:+ dq +:+ name +:+ dq)
            | Some Expr => ExprClass_parse self Expr (drop 1 items) context
            end
      | _ =>
          throw (k +:+ ".0")
            ("Expression name must be a string, but found "
             +:+ typeof op +:+ " instead.")
      end
  end.

(** [parseExpression] of this draft, with [fuel] bounding the depth of the
    recursion. *)
Fixpoint parseExpression (fuel : nat) (expr : Raw)
    (context : ParsingContext) : Outcome Expression :=
  match fuel with
  | O => OutOfFuel
  | S fuel' => parseExpression_body (parseExpression fuel') expr context
  end.

(** [serialize(withTypes)]: [None] stands for the [Error('Unimplemented')]
    that [BaseExpression.serialize] throws, which is what a plain
    [LiteralExpression] answers with, and so does a lambda expression one
    of whose arguments does. *)
Fixpoint serialize (type_name : Ty -> string) (withTypes : bool)
    (e : Expression) : option Raw :=
  match e with
  | Literal PrimitiveLiteral _ _ value => Some value
  | Literal ArrayLiteral _ _ value
  | Literal ObjectLiteral _ _ value => Some (RArray [RString "literal"; value])
  | Literal LiteralExpression _ _ _ => None
  | LambdaExpression cls _ type args =>
      let name := getName cls in
      let type := serialized_type_name type_name type in
      match
        (fix map (l : list Expression) : option (list Raw) :=
           match l with
           | [] => Some []
           | a :: rest =>
               match serialize type_name withTypes a, map rest with
               | Some x, Some xs => Some (x :: xs)
               | _, _ => None
               end
           end) args
      with
      | Some args =>
          Some (RArray
                  (RString (name +:+ (if withTypes then ": " +:+ type else ""))
                   :: args))
      | None => None
      end
  end.

(** ** The draft with [LiteralExpression] alone *)

Module Plain.

(** [LiteralExpression.parse(value, context)]. *)
Definition LiteralExpression_parse (value : Raw) (context : ParsingContext)
  : Expression :=
  let type :=
    match value with
    | RNull => Some NullType
    | RArray items => Some (inferArrayType items)
    | RObject _ | RColor _ _ _ _ => Some ObjectType
    | _ => primitiveTypes (typeof value)
    end in
  Literal LiteralExpression (key context) type value.

(** One unfolding of [parseExpression(expr, context)] of this draft. *)
Definition parseExpression_body
    (self : Raw -> ParsingContext -> Outcome Expression)
    (expr : Raw) (context : ParsingContext) : Outcome Expression :=
  let k := key context in
  match expr with
  | RUndefined => throw k "'undefined' value invalid. Use null instead."
  | RNull | RString _ | RNumber _ | RBoolean _ =>
      Ok (LiteralExpression_parse expr context)
  | RColor _ _ _ _ | RObject _ =>
      throw k ("Expected an array, but found " +:+ typeof expr +:+ " instead.")
  | RArray items =>
      let op := default RUndefined (items !! 0%nat) in
      match op with
      | RString name =>
          if String.eqb name "literal" then
            if negb (length items =? 2)%nat then
              throw k
                ("'literal' expression requires exactly one argument, but found "
                 +:+ pretty (length items - 1) +:+ " instead.")
            else
              let argcontext := concat context 1 (Some "literal") in
              let arg := default RUndefined (items !! 1%nat) in
              match arg with
              | RArray _ | RObject _ | RColor _ _ _ _ =>
                  Ok (LiteralExpression_parse arg argcontext)
              | _ =>
                  throw (key argcontext)
                    ("Expected argument to 'literal' to be an array or object, but found "
                     +:+ typeof arg +:+ " instead.")
              end
          else
            match definitions context !! name with
            | None =>
                throw (k +:+ ".0")
                  ("Unknown expression " +:+ dq +:+ name +:+ dq)
            | Some Expr => ExprClass_parse self Expr (drop 1 items) context
            end
      | _ =>
          throw (k +:+ ".0")
            ("Expression name must be a string, but found "
             +:+ typeof op +:+ " instead.")
      end
  end.

Fixpoint parseExpression (fuel : nat) (expr : Raw)
    (context : ParsingContext) : Outcome Expression :=
  match fuel with
  | O => OutOfFuel
  | S fuel' => parseExpression_body (parseExpression fuel') expr context
  end.

End Plain.

End Part001.

(** * Vocabulary of the statements

    The predicates and auxiliary functions in which the properties below
    are stated. *)

(** All items of a non-empty array have the entry [t] of [primitiveTypes]. *)
Definition uniform (t : Ty) (value : list Raw) : Prop :=
  value <> [] /\
  Forall (fun item => primitiveTypes (typeof item) = Some t) value.

(** [parsed_from self op context n args parsed]: the arguments [args], the
    first of which has index [n], parse one by one to [parsed], each at the
    context [context.concat(1 + index, op)]. *)
Inductive parsed_from
    (self : Raw -> ParsingContext -> Outcome Expression)
    (op : string) (context : ParsingContext)
  : nat -> list Raw -> list Expression -> Prop :=
  | parsed_from_nil n : parsed_from self op context n [] []
  | parsed_from_cons n arg rest e es :
      self arg (concat context (1 + n) (Some op)) = Ok e ->
      parsed_from self op context (S n) rest es ->
      parsed_from self op context n (arg :: rest) (e :: es).

(** Every lambda node of the tree stores the declared signature of its
    class. *)
Fixpoint stores_declared_type (e : Expression) : Prop :=
  match e with
  | LiteralExpression _ _ _ => True
  | LambdaExpression cls _ type args =>
      type = getType cls /\
      (fix all (l : list Expression) : Prop :=
         match l with
         | [] => True
         | a :: rest => stores_declared_type a /\ all rest
         end) args
  end.

(** The checks made on the label argument [arg] at position [i]. *)
Definition label_check (context : ParsingContext) (i : nat) (arg : Raw)
  : Outcome unit :=
  if (length (inputGroup_of arg) =? 0)%nat then
    throw (key context +:+ "." +:+ pretty (i + 1))
          "Expected at least one input value."
  else MatchExpression_check_inputGroup context i 0 (inputGroup_of arg).

(** A label argument that passes the checks: at least one value, none of
    which has [typeof] equal to ["object"]. *)
Definition valid_labels (arg : Raw) : Prop :=
  inputGroup_of arg <> [] /\
  Forall (fun v => typeof v <> "object") (inputGroup_of arg).

(** The label argument of a [match] application as it is handed to the
    default parse. *)
Definition wrap_labels (arg : Raw) : Raw :=
  RArray [RString "literal"; RArray (inputGroup_of arg)].

(** The form in which an accepted expression comes back from
    [serialize]: a scalar wrapped in ["literal"] is unwrapped, a colour
    wrapped in ["literal"] becomes an ["rgba"] application, each label
    argument of a [match] application is wrapped as an array literal, and
    everything else is kept. *)
Fixpoint normalize (defs : gmap string ExprClass) (expr : Raw) : Raw :=
  match expr with
  | RArray (RString name :: args) =>
      if String.eqb name "literal" then
        match args with
        | [RNull] => RNull
        | [RString s] => RString s
        | [RBoolean b] => RBoolean b
        | [RNumber n] => RNumber n
        | [RColor r g b a] =>
            RArray [RString "rgba"; RNumber r; RNumber g; RNumber b; RNumber a]
        | _ => expr
        end
      else
        match defs !! name with
        | Some cls =>
            match parse_kind cls with
            | DefaultParse => RArray (RString name :: List.map (normalize defs) args)
            | MatchParse =>
                RArray (RString name ::
                  (fix go (i : nat) (l : list Raw) : list Raw :=
                     match l with
                     | [] => []
                     | [x] => [normalize defs x]
                     | x :: rest =>
                         (if (i mod 2 =? 1)%nat then wrap_labels x
                          else normalize defs x) :: go (S i) rest
                     end) 0 args)
            end
        | None => expr
        end
  | _ => expr
  end.

(** The arguments of a [match] application from position [i] on, in the
    form [normalize] gives them. *)
Fixpoint normalize_match_args (defs : gmap string ExprClass) (i : nat)
    (l : list Raw) : list Raw :=
  match l with
  | [] => []
  | [x] => [normalize defs x]
  | x :: rest =>
      (if (i mod 2 =? 1)%nat then wrap_labels x else normalize defs x)
      :: normalize_match_args defs (S i) rest
  end.

(** The registry files each class under its own name. *)
Definition registry_consistent (defs : gmap string ExprClass) : Prop :=
  forall name cls, defs !! name = Some cls -> getName cls = name.

(** The array [normalizedArgs] without the checks that guard it. *)
Fixpoint normalized_middle (i : nat) (rest : list Raw) : list Raw :=
  match rest with
  | arg :: ((_ :: _) as rest') =>
      (if (i mod 2 =? 1)%nat then wrap_labels arg else arg)
      :: normalized_middle (S i) rest'
  | _ => []
  end.

(** The labels of a branch and the keys they are entered under. *)
Definition labels (e : Expression) : list Raw :=
  match Expression_value e with
  | RArray values => values
  | _ => []
  end.

Definition label_keys (e : Expression) : list string :=
  compile_key <$> labels e.

(** The values a label can be: those [primitiveTypes] has an entry for. *)
Definition label_primitive (v : Raw) : Prop :=
  match v with
  | RString _ | RNumber _ | RBoolean _ => True
  | _ => False
  end.

(** [self'] answers as [self] wherever [self] has an answer. *)
Definition answers_as
    (self self' : Raw -> ParsingContext -> Outcome Expression) : Prop :=
  forall expr context r,
    self expr context = r -> r <> OutOfFuel -> self' expr context = r.

(** ** Vocabulary of the further properties *)

(** The key of a context is its path, joined: what the constructor
    establishes. *)
Definition ParsingContext_wf (context : ParsingContext) : Prop :=
  key context = join_dot (path context).

(** Whether a string contains a dot. *)
Fixpoint has_dot (s : string) : bool :=
  match s with
  | EmptyString => false
  | String c rest => if Ascii.eqb c "."%char then true else has_dot rest
  end.

(** An expression that contains, outside literal values, no ["literal"]
    application and no application of an operator with the parse of
    [match]. *)
Fixpoint plain (defs : gmap string ExprClass) (expr : Raw) : Prop :=
  match expr with
  | RArray (RString name :: args) =>
      name <> "literal" /\
      (forall cls, defs !! name = Some cls -> parse_kind cls = DefaultParse) /\
      (fix all (l : list Raw) : Prop :=
         match l with
         | [] => True
         | a :: rest => plain defs a /\ all rest
         end) args
  | _ => True
  end.

(** A literal node holding a non-empty array of values none of which has
    [typeof] equal to ["object"]. *)
Definition valid_label_node (e : Expression) : Prop :=
  exists k t values,
    e = LiteralExpression k t (RArray values) /\
    values <> [] /\
    Forall (fun v => typeof v <> "object") values.

(** The label arguments among [rest], the arguments from position [i] on
    (the last one is never a label), pass the checks. *)
Fixpoint labels_valid (i : nat) (rest : list Raw) : Prop :=
  match rest with
  | arg :: ((_ :: _) as rest') =>
      (i mod 2 = 1 -> valid_labels arg) /\ labels_valid (S i) rest'
  | _ => True
  end.

(** The nodes at label positions among [rest], the children from position
    [i] on, are valid label nodes. *)
Fixpoint label_positions (i : nat) (rest : list Expression) : Prop :=
  match rest with
  | e :: ((_ :: _) as rest') =>
      (i mod 2 = 1 -> valid_label_node e) /\ label_positions (S i) rest'
  | _ => True
  end.

(** The indices [tail], each preceded by a dot. *)
Definition dotted (tail : list nat) : string :=
  foldr (fun n s => "." +:+ pretty n +:+ s) "" tail.

(** The shape of the key of an error raised at or below the path [path]:
    the key of a path that extends it, followed by at most two more
    indices; unless [path] is the root this is again the key of a path. *)
Definition located_below (path : list nat) (k : string) : Prop :=
  exists below tail,
    length tail <= 2 /\
    k = join_dot (path ++ below) +:+ dotted tail /\
    (path <> [] -> k = join_dot (path ++ below ++ tail)).

(** ** Vocabulary for the drafts *)

(** The form in which an expression accepted by the first draft comes back
    from its [serialize]: each label argument of an application of an
    operator with the parse of [match] is wrapped as an array literal, and
    everything else is kept. *)
Fixpoint draft_normalize (defs : gmap string ExprClass) (expr : Raw) : Raw :=
  match expr with
  | RArray (RString name :: args) =>
      if String.eqb name "literal" then expr
      else
        match defs !! name with
        | Some cls =>
            match parse_kind cls with
            | DefaultParse =>
                RArray (RString name :: List.map (draft_normalize defs) args)
            | MatchParse =>
                RArray (RString name ::
                  (fix go (i : nat) (l : list Raw) : list Raw :=
                     match l with
                     | [] => []
                     | [x] => [draft_normalize defs x]
                     | x :: rest =>
                         (if (i mod 2 =? 1)%nat then wrap_labels x
                          else draft_normalize defs x) :: go (S i) rest
                     end) 0 args)
            end
        | None => expr
        end
  | _ => expr
  end.

(** The arguments of a [match] application from position [i] on, in the
    form [draft_normalize] gives them. *)
Fixpoint draft_normalize_match_args (defs : gmap string ExprClass) (i : nat)
    (l : list Raw) : list Raw :=
  match l with
  | [] => []
  | [x] => [draft_normalize defs x]
  | x :: rest =>
      (if (i mod 2 =? 1)%nat then wrap_labels x else draft_normalize defs x)
      :: draft_normalize_match_args defs (S i) rest
  end.

(** No operator of the registry overrides the default parse. *)
Definition default_parse_only (defs : gmap string ExprClass) : Prop :=
  forall name cls, defs !! name = Some cls -> parse_kind cls = DefaultParse.

(** The class the first draft gives to the literal node of a value. *)
Definition draft_class (value : Raw) : Part001.LiteralClass :=
  match value with
  | RArray _ => Part001.ArrayLiteral
  | RObject _ | RColor _ _ _ _ => Part001.ObjectLiteral
  | _ => Part001.PrimitiveLiteral
  end.

(** A tree with each literal node moved to the class the first draft gives
    it; keys, types, values and operator nodes are kept. *)
Fixpoint as_first_draft (e : Part001.Expression) : Part001.Expression :=
  match e with
  | Part001.Literal _ key type value =>
      Part001.Literal (draft_class value) key type value
  | Part001.LambdaExpression cls key type args =>
      Part001.LambdaExpression cls key type (List.map as_first_draft args)
  end.

(** Whether a tree contains a literal node. *)
Fixpoint has_literal (e : Part001.Expression) : bool :=
  match e with
  | Part001.Literal _ _ _ _ => true
  | Part001.LambdaExpression _ _ _ args => existsb has_literal args
  end.

(** Every literal node of the tree is a plain [LiteralExpression]. *)
Fixpoint plain_literals (e : Part001.Expression) : Prop :=
  match e with
  | Part001.Literal cls _ _ _ => cls = Part001.LiteralExpression
  | Part001.LambdaExpression _ _ _ args =>
      (fix all (l : list Part001.Expression) : Prop :=
         match l with
         | [] => True
         | a :: rest => plain_literals a /\ all rest
         end) args
  end.

Definition undefined_message : string :=
  "'undefined' value invalid. Use null instead.".

(** * Example expressions

    A registry holding [match] and an accessor-like operator [get], and
    compiled [match] expressions whose evaluation record is the value of
    the feature property read by the input expression [["get", "x"]]. *)

(** An accessor-like operator declared with one [String] parameter. *)
Definition get_class : ExprClass :=
  {| getName := "get";
     getType := lambda ValueType [StringType];
     parse_kind := DefaultParse |}.

Definition example_definitions : gmap string ExprClass :=
  <["get" := get_class]> (<["match" := MatchExpression]> ∅).

Definition example_context : ParsingContext :=
  ParsingContext_new example_definitions [] [].

Definition example_match : Raw :=
  RArray [RString "match"; RArray [RString "get"; RString "x"];
          RArray [RNumber 1]; RString "a"; RString "b"].

Definition example_match_node : Expression :=
  LambdaExpression MatchExpression "" (getType MatchExpression)
    [LambdaExpression get_class "1" (getType get_class)
       [LiteralExpression "1.1" StringType (RString "x")];
     LiteralExpression "2" (array NumberType (Some 1)) (RArray [RNumber 1]);
     LiteralExpression "3" StringType (RString "a");
     LiteralExpression "4" StringType (RString "b")].

(** A text that reads as the same expression at both places, as a
    parenthesised expression or a call does. *)
Definition expression_text {Env : Type} (f : JS Env) : Source Env :=
  mkSource (Some f) (Some f).

Definition compiled_input : CompiledExpression Raw :=
  mkCompiledExpression (expression_text (fun env => Returned env)) ValueType
    false true
    (LambdaExpression get_class "1" (getType get_class)
       [LiteralExpression "1.1" StringType (RString "x")]).

Definition compiled_literal (key : string) (value : Raw)
  : CompiledExpression Raw :=
  let e := LiteralExpression key (typeOf value) value in
  mkCompiledExpression (LiteralExpression_compile e) (typeOf value)
    true true e.


(** [["match", ["get", "x"], [1], "a", [1], "b", "fallback"]]. *)
Definition duplicate_labels : list (CompiledExpression Raw) :=
  [compiled_input;
   compiled_literal "2" (RArray [RNumber 1]); compiled_literal "3" (RString "a");
   compiled_literal "4" (RArray [RNumber 1]); compiled_literal "5" (RString "b");
   compiled_literal "6" (RString "fallback")].

Definition duplicate_labels_js : MatchJS Raw :=
  mkMatchJS
    [arrow (js (compiled_literal "3" (RString "a")));
     arrow (js (compiled_literal "5" (RString "b")));
     arrow (js (compiled_literal "6" (RString "fallback")))]
    (<["number-1" := 1]> ∅)
    (js compiled_input).

(** [["match", ["get", "x"], [0], "num", ["0"], "str", "other"]]. *)
Definition tagged_labels : list (CompiledExpression Raw) :=
  [compiled_input;
   compiled_literal "2" (RArray [RNumber 0]); compiled_literal "3" (RString "num");
   compiled_literal "4" (RArray [RString "0"]); compiled_literal "5" (RString "str");
   compiled_literal "6" (RString "other")].

Definition tagged_labels_inputs : list Expression :=
  [expression (compiled_literal "2" (RArray [RNumber 0]));
   expression (compiled_literal "4" (RArray [RString "0"]))].

Definition tagged_labels_outputs : list (option (JS Raw)) :=
  [arrow (js (compiled_literal "3" (RString "num")));
   arrow (js (compiled_literal "5" (RString "str")));
   arrow (js (compiled_literal "6" (RString "other")))].

Definition tagged_labels_js : MatchJS Raw :=
  mkMatchJS tagged_labels_outputs
    (<["number-0" := 0]> (<["string-0" := 1]> ∅))
    (js compiled_input).




(** [["match", ["get", "x"], [0], "num", ["0"], "str", ["literal", {}]]]. *)
Definition object_fallback : list (CompiledExpression Raw) :=
  [compiled_input;
   compiled_literal "2" (RArray [RNumber 0]); compiled_literal "3" (RString "num");
   compiled_literal "4" (RArray [RString "0"]); compiled_literal "5" (RString "str");
   compiled_literal "6" (RObject [])].


(** * Properties *)

(** ** Array literal type inference *)

Lemma primitiveTypes_primitive tag t :
  primitiveTypes tag = Some t -> exists p, t = primitive p.
Proof.
  unfold primitiveTypes.
  repeat case_match; intros [= <-]; eauto.
Qed.

Lemma Ty_same_true a b : Ty_same a b = true -> a = b.
Proof.
  destruct a, b; simpl; try discriminate.
  intros H. apply bool_decide_eq_true in H. by subst.
Qed.

Lemma Ty_same_refl p : Ty_same (primitive p) (primitive p) = true.
Proof. simpl. by apply bool_decide_eq_true. Qed.

(** Once [itemType] is set, the loop keeps it exactly when every remaining
    item has it, and degrades to [Value] otherwise. *)
Lemma inferArrayType_loop_set p rest :
  (Forall (fun item => primitiveTypes (typeof item) = Some (primitive p)) rest ->
   inferArrayType_loop (Some (primitive p)) rest = Some (primitive p)) /\
  (~ Forall (fun item => primitiveTypes (typeof item) = Some (primitive p)) rest ->
   inferArrayType_loop (Some (primitive p)) rest = Some ValueType).
Proof.
  induction rest as [|item rest [IHyes IHno]]; cbn [inferArrayType_loop].
  - split; [done | intros H; destruct H; constructor].
  - destruct (primitiveTypes (typeof item)) as [t|] eqn:Ht.
    + destruct (Ty_same (primitive p) t) eqn:Hs.
      * apply Ty_same_true in Hs. subst t. split.
        -- intros H. apply IHyes. by inversion H.
        -- intros H. apply IHno. intros HF. apply H. by constructor.
      * split; [|done].
        intros H. inversion H as [|? ? Hi _]; subst.
        rewrite Ht in Hi. injection Hi as ->.
        pose proof (Ty_same_refl p) as Hr. congruence.
    + split; [|done].
      intros H. inversion H as [|? ? Hi _]. congruence.
Qed.

Lemma inferArrayType_loop_uniform t value :
  uniform t value -> inferArrayType_loop None value = Some t.
Proof.
  intros [Hne HF]. destruct value as [|item rest]; [done|].
  inversion HF as [|? ? Hi Hrest]; subst. simpl. rewrite Hi.
  destruct (primitiveTypes_primitive _ _ Hi) as [p ->].
  by apply inferArrayType_loop_set.
Qed.

Lemma inferArrayType_loop_not_uniform value :
  (forall t, ~ uniform t value) ->
  default ValueType (inferArrayType_loop None value) = ValueType.
Proof.
  intros Hnu. destruct value as [|item rest]; [done|]. simpl.
  destruct (primitiveTypes (typeof item)) as [t|] eqn:Hi; [|done].
  destruct (primitiveTypes_primitive _ _ Hi) as [p ->].
  destruct (inferArrayType_loop_set p rest) as [_ Hno].
  rewrite Hno; [done|].
  intros HF. apply (Hnu (primitive p)). split; [done|]. by constructor.
Qed.

(** C4 (as amended).  [inferArrayType] always records the length of the
    array as the fixed length of the array type.  The item type is the
    common type of the items when the array is non-empty and its items are
    all strings, all numbers or all booleans; in every other case (empty
    array, items of different kinds, a null, array or object item) it is
    the [Value] type. *)
Theorem inferArrayType_correct (value : list Raw) :
  fixed_length (inferArrayType value) = Some (length value) /\
  (forall t, uniform t value -> item_type (inferArrayType value) = Some t) /\
  ((forall t, ~ uniform t value) ->
   item_type (inferArrayType value) = Some ValueType).
Proof.
  split; [done|]. split.
  - intros t Hu. simpl. by rewrite (inferArrayType_loop_uniform t value Hu).
  - intros Hnu. simpl. by rewrite inferArrayType_loop_not_uniform.
Qed.

Lemma inferArrayType_correct_witness :
  uniform NumberType [RNumber 1; RNumber 2; RNumber 3] /\
  item_type (inferArrayType [RNumber 1; RNumber 2; RNumber 3])
    = Some NumberType /\
  (forall t, ~ uniform t [RNumber 1; RString "a"; RBoolean true]) /\
  item_type (inferArrayType [RNumber 1; RString "a"; RBoolean true])
    = Some ValueType.
Proof.
  assert (Hu : uniform NumberType [RNumber 1; RNumber 2; RNumber 3]).
  { split; [discriminate | repeat constructor]. }
  assert (Hn : forall t, ~ uniform t [RNumber 1; RString "a"; RBoolean true]).
  { intros t [_ HF].
    inversion HF as [|? ? H1 HF']; subst.
    inversion HF' as [|? ? H2 _]; subst.
    vm_compute in H1, H2. congruence. }
  split; [exact Hu|]. split.
  - exact (proj1 (proj2 (inferArrayType_correct _)) _ Hu).
  - split; [exact Hn|].
    exact (proj2 (proj2 (inferArrayType_correct _)) Hn).
Defined.

(** C4 (as stated) fails: an array of items of different kinds still gets
    a fixed length. *)
Lemma inferArrayType_mixed_keeps_length :
  let value := [RNumber 1; RString "a"; RBoolean true] in
  typeof (RNumber 1) <> typeof (RString "a") /\
  inferArrayType value = array ValueType (Some 3) /\
  fixed_length (inferArrayType value) <> None.
Proof. repeat split; discriminate. Qed.

(** ** The default parse *)

Lemma parsed_from_length self op context n args parsed :
  parsed_from self op context n args parsed -> length parsed = length args.
Proof. induction 1; simpl; congruence. Qed.

Lemma LambdaExpression_parse_loop_ok self op context args :
  forall parsedArgs out,
    LambdaExpression_parse_loop self op context parsedArgs args = Ok out <->
    exists parsed,
      out = parsedArgs ++ parsed /\
      parsed_from self op context (length parsedArgs) args parsed.
Proof.
  induction args as [|arg rest IH]; intros acc out; simpl.
  - split.
    + intros [= <-]. exists []. rewrite app_nil_r. split; [done | constructor].
    + intros (parsed & -> & Hp). inversion Hp. by rewrite app_nil_r.
  - destruct (self arg (concat context (S (length acc)) (Some op)))
      as [e| |] eqn:He; simpl.
    + rewrite IH. rewrite length_app. simpl. rewrite Nat.add_1_r. split.
      * intros (parsed & -> & Hp). exists (e :: parsed).
        rewrite <- app_assoc. split; [done|]. by constructor.
      * intros (parsed & -> & Hp). inversion Hp as [|? ? ? e' es He' Hes]; subst.
        simpl in He'. rewrite He in He'. injection He' as <-.
        exists es. by rewrite <- app_assoc.
    + split; [done|]. intros (parsed & _ & Hp).
      inversion Hp as [|? ? ? e' es He' Hes]; subst. simpl in He'. congruence.
    + split; [done|]. intros (parsed & _ & Hp).
      inversion Hp as [|? ? ? e' es He' Hes]; subst. simpl in He'. congruence.
Qed.

Lemma LambdaExpression_parse_loop_throw self op context args :
  forall parsedArgs err,
    LambdaExpression_parse_loop self op context parsedArgs args = Throw err ->
    exists i arg,
      args !! i = Some arg /\
      self arg (concat context (1 + (length parsedArgs + i)) (Some op))
        = Throw err.
Proof.
  induction args as [|arg rest IH]; intros acc err; simpl; [done|].
  destruct (self arg (concat context (S (length acc)) (Some op)))
    as [e| |] eqn:He; simpl; [| |done].
  - intros H. apply IH in H as (i & a & Hi & Ha).
    exists (S i), a. split; [done|].
    replace (length acc + S i) with (length (acc ++ [e]) + i)
      by (rewrite length_app; simpl; lia).
    exact Ha.
  - intros [= <-]. exists 0, arg. split; [done|].
    by rewrite Nat.add_0_r.
Qed.

Lemma LambdaExpression_parse_ok self this args context node :
  LambdaExpression_parse self this args context = Ok node <->
  exists parsed,
    parsed_from self (getName this) context 0 args parsed /\
    node = LambdaExpression this (key context) (getType this) parsed.
Proof.
  unfold LambdaExpression_parse.
  destruct (LambdaExpression_parse_loop self (getName this) context [] args)
    as [out| |] eqn:Hl; simpl.
  - apply LambdaExpression_parse_loop_ok in Hl as (parsed & -> & Hp).
    simpl in *. split.
    + intros [= <-]. eauto.
    + intros (parsed' & Hp' & ->).
      assert (LambdaExpression_parse_loop self (getName this) context [] args
              = Ok parsed') as H1
        by (apply LambdaExpression_parse_loop_ok; eauto).
      assert (LambdaExpression_parse_loop self (getName this) context [] args
              = Ok parsed) as H2
        by (apply LambdaExpression_parse_loop_ok; eauto).
      congruence.
  - split; [done|]. intros (parsed & Hp & _).
    assert (LambdaExpression_parse_loop self (getName this) context [] args
            = Ok parsed) by (apply LambdaExpression_parse_loop_ok; eauto).
    congruence.
  - split; [done|]. intros (parsed & Hp & _).
    assert (LambdaExpression_parse_loop self (getName this) context [] args
            = Ok parsed) by (apply LambdaExpression_parse_loop_ok; eauto).
    congruence.
Qed.

(** C1 (as amended).  The default parse checks neither the number nor the
    types of the arguments against the declared signature.  It succeeds
    exactly when every raw argument parses, whatever their number and
    types, and then yields the node of that operator holding the parsed
    arguments in order; an error it reports is the error of one of its
    arguments. *)
Theorem default_parse_checks_nothing
    (self : Raw -> ParsingContext -> Outcome Expression)
    (this : ExprClass) (args : list Raw) (context : ParsingContext) :
  (forall node,
     LambdaExpression_parse self this args context = Ok node <->
     exists parsed,
       parsed_from self (getName this) context 0 args parsed /\
       node = LambdaExpression this (key context) (getType this) parsed) /\
  (forall err,
     LambdaExpression_parse self this args context = Throw err ->
     exists i arg,
       args !! i = Some arg /\
       self arg (concat context (1 + i) (Some (getName this))) = Throw err).
Proof.
  split.
  - intros node. apply LambdaExpression_parse_ok.
  - intros err. unfold LambdaExpression_parse.
    destruct (LambdaExpression_parse_loop self (getName this) context [] args)
      as [out| |] eqn:Hl; simpl; [done| |done].
    intros [= <-].
    by apply LambdaExpression_parse_loop_throw in Hl.
Qed.

Lemma default_parse_checks_nothing_witness :
  LambdaExpression_parse (parseExpression 1) get_class
    [RNumber 1; RNumber 2] example_context
  = Ok (LambdaExpression get_class "" (lambda ValueType [StringType])
          [LiteralExpression "1" NumberType (RNumber 1);
           LiteralExpression "2" NumberType (RNumber 2)]).
Proof.
  apply (proj1 (default_parse_checks_nothing (parseExpression 1) get_class
                  [RNumber 1; RNumber 2] example_context)).
  eexists. split; [|reflexivity].
  repeat (econstructor; try reflexivity).
Defined.

(** C1 (as stated) fails: [get] is declared with one parameter of type
    [String], yet an application to two numbers parses. *)
Lemma default_parse_accepts_wrong_arity_and_types :
  getType get_class = lambda ValueType [StringType] /\
  length [RNumber 1; RNumber 2] <> length [StringType] /\
  parseExpression 2 (RArray [RString "get"; RNumber 1; RNumber 2])
    example_context
  = Ok (LambdaExpression get_class "" (lambda ValueType [StringType])
          [LiteralExpression "1" NumberType (RNumber 1);
           LiteralExpression "2" NumberType (RNumber 2)]).
Proof. split; [reflexivity|]. split; [discriminate | by vm_compute]. Qed.

(** ** The type stored in a parsed node *)

Lemma parsed_from_Forall self op context (P : Expression -> Prop) :
  (forall arg c e, self arg c = Ok e -> P e) ->
  forall n args parsed,
    parsed_from self op context n args parsed -> Forall P parsed.
Proof. intros HP n args parsed. induction 1; constructor; eauto. Qed.

(** Induction on the nodes a successful parse builds: a literal, or an
    instance of a class carrying the declared signature of that class. *)
Lemma parseExpression_Ok_ind (P : Expression -> Prop) :
  (forall k t v, P (LiteralExpression k t v)) ->
  (forall cls k parsed,
     Forall P parsed -> P (LambdaExpression cls k (getType cls) parsed)) ->
  forall fuel expr context node,
    parseExpression fuel expr context = Ok node -> P node.
Proof.
  intros Hlit Hlam. induction fuel as [|fuel IH]; intros expr context node;
    [done|].
  assert (Hdefault : forall cls args ctx nd,
            LambdaExpression_parse (parseExpression fuel) cls args ctx = Ok nd ->
            P nd).
  { intros cls args ctx nd H.
    apply LambdaExpression_parse_ok in H as (parsed & Hp & ->).
    apply Hlam. eapply parsed_from_Forall; [|exact Hp]. eauto. }
  simpl. unfold parseExpression_body.
  destruct expr as [| |s|b|n|r g b a|items|props]; try done;
    try (intros [= <-]; apply Hlit).
  destruct items as [|op args]; [done|].
  destruct op as [| |name| | | | |]; try done.
  destruct (String.eqb name "literal").
  - unfold LiteralExpression_parse.
    destruct args as [|arg0 [|]]; try done.
    destruct (isValue arg0); simpl; [|done].
    intros [= <-]. apply Hlit.
  - destruct (definitions context !! name) as [Expr|]; [|done].
    unfold ExprClass_parse.
    destruct (parse_kind Expr); [apply Hdefault|].
    unfold MatchExpression_parse.
    destruct (length args <? 2)%nat; [done|].
    destruct (MatchExpression_parse_loop _ _ _ _); simpl; try done.
    apply Hdefault.
Qed.

Lemma stores_declared_type_lambda cls k parsed :
  Forall stores_declared_type parsed ->
  stores_declared_type (LambdaExpression cls k (getType cls) parsed).
Proof.
  intros HF. simpl. split; [done|].
  induction HF; simpl; auto.
Qed.

(** C2 (as amended).  The node constructed by a successful parse of an
    operator application, and every operator node below it, stores the
    declared signature of its operator, [getType()], as it is. *)
Theorem parsed_node_stores_declared_signature
    (fuel : nat) (expr : Raw) (context : ParsingContext) (node : Expression) :
  parseExpression fuel expr context = Ok node ->
  stores_declared_type node.
Proof.
  apply (parseExpression_Ok_ind stores_declared_type).
  - intros; exact I.
  - intros. by apply stores_declared_type_lambda.
Qed.

Lemma example_match_parses :
  parseExpression 3 example_match example_context = Ok example_match_node.
Proof. by vm_compute. Qed.

Lemma parsed_node_stores_declared_signature_witness :
  stores_declared_type example_match_node.
Proof.
  apply (parsed_node_stores_declared_signature 3 example_match
           example_context).
  by vm_compute.
Defined.

(** C2 (as stated) fails: the node parsed from a [match] application
    stores the generic signature over the type variables [T] and [U]. *)
Lemma parsed_match_stores_generic_signature :
  exists node,
    parseExpression 3 example_match example_context = Ok node /\
    Expression_type node = getType MatchExpression /\
    is_generic (Expression_type node) = true.
Proof. exists example_match_node. repeat split; by vm_compute. Qed.

(** ** Parsing a [match] expression *)

(** A [match] application reaches [MatchExpression.parse] with the
    arguments that follow the operator name. *)
Lemma parseExpression_match fuel args context :
  definitions context !! "match" = Some MatchExpression ->
  parseExpression (S fuel) (RArray (RString "match" :: args)) context
  = MatchExpression_parse (parseExpression fuel) MatchExpression args context.
Proof. intros Hm. simpl. by rewrite Hm. Qed.

(** C3 (as amended).  A [match] application with fewer than two arguments
    in all, the input expression included, fails with the arity error
    "Expected at least 2 arguments, but found only N." located at the key
    of the expression. *)
Theorem match_arity_error
    (fuel : nat) (args : list Raw) (context : ParsingContext) :
  definitions context !! "match" = Some MatchExpression ->
  length args < 2 ->
  parseExpression (S fuel) (RArray (RString "match" :: args)) context
  = throw (key context)
      ("Expected at least 2 arguments, but found only "
       +:+ pretty (length args) +:+ ".").
Proof.
  intros Hm Hlen. rewrite parseExpression_match by done.
  unfold MatchExpression_parse.
  by rewrite (proj2 (Nat.ltb_lt _ _) Hlen).
Qed.

Lemma match_arity_error_witness :
  parseExpression 1
    (RArray [RString "match"; RArray [RString "get"; RString "x"]])
    example_context
  = throw "" "Expected at least 2 arguments, but found only 1.".
Proof.
  apply (match_arity_error 0 [RArray [RString "get"; RString "x"]]
           example_context).
  - reflexivity.
  - simpl. lia.
Defined.

(** C3 (as stated) fails: an input followed by a single trailing argument
    parses; no arity error is raised. *)
Lemma match_with_one_trailing_argument_parses :
  parseExpression 3
    (RArray [RString "match"; RArray [RString "get"; RString "x"]; RNumber 1])
    example_context
  = Ok (LambdaExpression MatchExpression "" (getType MatchExpression)
          [LambdaExpression get_class "1" (getType get_class)
             [LiteralExpression "1.1" StringType (RString "x")];
           LiteralExpression "2" NumberType (RNumber 1)]).
Proof. by vm_compute. Qed.

Lemma check_inputGroup_valid context i inputGroup :
  Forall (fun v => typeof v <> "object") inputGroup ->
  forall j, MatchExpression_check_inputGroup context i j inputGroup = Ok tt.
Proof.
  induction 1 as [|v rest Hv _ IH]; intros j; simpl; [done|].
  by rewrite (proj2 (String.eqb_neq _ _) Hv).
Qed.

Lemma label_check_valid context i arg :
  valid_labels arg -> label_check context i arg = Ok tt.
Proof.
  intros [Hne HF]. unfold label_check.
  destruct (inputGroup_of arg) as [|v rest] eqn:Hg; [done|]. simpl length.
  by apply check_inputGroup_valid.
Qed.

(** The first value of [inputGroup] whose [typeof] is ["object"] is the one
    reported, at its own index. *)
Lemma check_inputGroup_first_object context i inputGroup :
  forall j0 j v,
    inputGroup !! j = Some v ->
    typeof v = "object" ->
    (forall j' v', j' < j -> inputGroup !! j' = Some v' ->
                   typeof v' <> "object") ->
    MatchExpression_check_inputGroup context i j0 inputGroup
    = throw (key context +:+ "." +:+ pretty (i + 1) +:+ "."
             +:+ pretty (j0 + j))
            match_inputs_message.
Proof.
  induction inputGroup as [|w rest IH]; intros j0 j v Hj Hv Hbefore;
    [done|].
  destruct j as [|j]; simpl in *.
  - injection Hj as ->. rewrite Hv. simpl. by rewrite Nat.add_0_r.
  - assert (typeof w <> "object") as Hw by (apply (Hbefore 0); [lia|done]).
    rewrite (proj2 (String.eqb_neq _ _) Hw).
    rewrite (IH (S j0) j v Hj Hv).
    + by replace (S j0 + j) with (j0 + S j) by lia.
    + intros j' v' Hlt Hj'. apply (Hbefore (S j')); [lia|done].
Qed.

Lemma MatchExpression_parse_loop_odd context i arg x rest acc :
  i mod 2 = 1 ->
  MatchExpression_parse_loop context i (arg :: x :: rest) acc
  = bind (label_check context i arg) (fun _ =>
      MatchExpression_parse_loop context (S i) (x :: rest)
        (acc ++ [RArray [RString "literal"; RArray (inputGroup_of arg)]])).
Proof.
  intros Hi. cbn [MatchExpression_parse_loop]. unfold label_check.
  rewrite (proj2 (Nat.eqb_eq _ _) Hi).
  by destruct (length (inputGroup_of arg) =? 0)%nat.
Qed.

Lemma MatchExpression_parse_loop_even context i arg x rest acc :
  i mod 2 <> 1 ->
  MatchExpression_parse_loop context i (arg :: x :: rest) acc
  = MatchExpression_parse_loop context (S i) (x :: rest) (acc ++ [arg]).
Proof.
  intros Hi. cbn [MatchExpression_parse_loop].
  by rewrite (proj2 (Nat.eqb_neq _ _) Hi).
Qed.

(** The loop reports the error of the first label position that fails its
    checks. *)
Lemma MatchExpression_parse_loop_first_error context err :
  forall d i0 rest acc arg,
    rest !! d = Some arg ->
    d + 1 < length rest ->
    (i0 + d) mod 2 = 1 ->
    label_check context (i0 + d) arg = Throw err ->
    (forall d' a, d' < d -> (i0 + d') mod 2 = 1 -> rest !! d' = Some a ->
                  valid_labels a) ->
    MatchExpression_parse_loop context i0 rest acc = Throw err.
Proof.
  induction d as [|d IH]; intros i0 rest acc arg Hd Hlen Hodd Herr Hbefore.
  - destruct rest as [|a [|x rest]]; simpl in Hlen; try lia.
    injection Hd as ->. rewrite Nat.add_0_r in *.
    rewrite MatchExpression_parse_loop_odd by done. by rewrite Herr.
  - destruct rest as [|a [|x rest]]; simpl in Hlen; try lia.
    simpl in Hd.
    assert (Hrec : forall acc',
              MatchExpression_parse_loop context (S i0) (x :: rest) acc'
              = Throw err).
    { intros acc'. apply (IH (S i0) (x :: rest) acc' arg).
      - done.
      - simpl. lia.
      - by replace (S i0 + d) with (i0 + S d) by lia.
      - by replace (S i0 + d) with (i0 + S d) by lia.
      - intros d' a' Hlt Ho Ha'. apply (Hbefore (S d') a'); [lia| |done].
        by replace (i0 + S d') with (S i0 + d') by lia. }
    destruct (decide (i0 mod 2 = 1)) as [Hi0|Hi0].
    + rewrite MatchExpression_parse_loop_odd by done.
      rewrite label_check_valid; [apply Hrec|].
      apply (Hbefore 0 a); [lia| |done]. by rewrite Nat.add_0_r.
    + rewrite MatchExpression_parse_loop_even by done. apply Hrec.
Qed.

Lemma check_inputGroup_outcome context i inputGroup :
  forall j,
    MatchExpression_check_inputGroup context i j inputGroup = Ok tt \/
    exists err,
      MatchExpression_check_inputGroup context i j inputGroup = Throw err.
Proof.
  induction inputGroup as [|v rest IH]; intros j; simpl; [by left|].
  destruct (String.eqb (typeof v) "object"); [right; by eexists | apply IH].
Qed.

Lemma label_check_outcome context i arg :
  label_check context i arg = Ok tt \/
  exists err, label_check context i arg = Throw err.
Proof.
  unfold label_check.
  destruct (length (inputGroup_of arg) =? 0)%nat; [right; by eexists|].
  apply check_inputGroup_outcome.
Qed.

(** A label argument holding a value whose [typeof] is ["object"] fails
    its checks. *)
Lemma label_check_object context i arg j v :
  inputGroup_of arg !! j = Some v ->
  typeof v = "object" ->
  exists err, label_check context i arg = Throw err.
Proof.
  intros Hj Hv. unfold label_check.
  destruct (inputGroup_of arg) as [|w rest] eqn:Hg; [done|].
  simpl length. cbn [Nat.eqb]. clear Hg. generalize 0 as j0.
  revert j Hj. generalize (w :: rest) as inputGroup. clear w rest.
  induction inputGroup as [|w rest IH]; intros j Hj j0; [done|]. simpl.
  destruct (String.eqb (typeof w) "object") eqn:Hw; [by eexists|].
  destruct j as [|j]; simpl in Hj.
  - injection Hj as ->. rewrite Hv in Hw. done.
  - by apply (IH j).
Qed.

(** The loop fails as soon as some label position fails its checks. *)
Lemma MatchExpression_parse_loop_some_error context err :
  forall d i0 rest acc arg,
    rest !! d = Some arg ->
    d + 1 < length rest ->
    (i0 + d) mod 2 = 1 ->
    label_check context (i0 + d) arg = Throw err ->
    exists err', MatchExpression_parse_loop context i0 rest acc = Throw err'.
Proof.
  induction d as [|d IH]; intros i0 rest acc arg Hd Hlen Hodd Herr.
  - destruct rest as [|a [|x rest]]; simpl in Hlen; try lia.
    injection Hd as ->. rewrite Nat.add_0_r in *.
    rewrite MatchExpression_parse_loop_odd by done. rewrite Herr.
    by eexists.
  - destruct rest as [|a [|x rest]]; simpl in Hlen; try lia.
    simpl in Hd.
    assert (Hrec : forall acc',
              exists err',
                MatchExpression_parse_loop context (S i0) (x :: rest) acc'
                = Throw err').
    { intros acc'. apply (IH (S i0) (x :: rest) acc' arg).
      - done.
      - simpl. lia.
      - by replace (S i0 + d) with (i0 + S d) by lia.
      - by replace (S i0 + d) with (i0 + S d) by lia. }
    destruct (decide (i0 mod 2 = 1)) as [Hi0|Hi0].
    + rewrite MatchExpression_parse_loop_odd by done.
      destruct (label_check_outcome context i0 a) as [->|[err' ->]];
        [apply Hrec | by eexists].
    + rewrite MatchExpression_parse_loop_even by done. apply Hrec.
Qed.

Lemma MatchExpression_parse_some_error self this args context i arg err :
  i mod 2 = 1 ->
  i + 1 < length args ->
  args !! i = Some arg ->
  label_check context i arg = Throw err ->
  exists err', MatchExpression_parse self this args context = Throw err'.
Proof.
  intros Hodd Hlen Hi Herr. unfold MatchExpression_parse.
  assert ((length args <? 2)%nat = false) as -> by (apply Nat.ltb_ge; lia).
  destruct i as [|d]; [done|].
  destruct (MatchExpression_parse_loop_some_error context err d 1
              (drop 1 args) [default RUndefined (args !! 0)] arg)
    as [err' ->]; try done.
  - by rewrite lookup_drop.
  - rewrite length_drop. lia.
  - by eexists.
Qed.

(** The same, for the label at position [i] of the arguments of a [match]
    application. *)
Lemma MatchExpression_parse_first_error self this args context i arg err :
  i mod 2 = 1 ->
  i + 1 < length args ->
  args !! i = Some arg ->
  label_check context i arg = Throw err ->
  (forall j a, j < i -> j mod 2 = 1 -> args !! j = Some a -> valid_labels a) ->
  MatchExpression_parse self this args context = Throw err.
Proof.
  intros Hodd Hlen Hi Herr Hbefore. unfold MatchExpression_parse.
  assert ((length args <? 2)%nat = false) as -> by (apply Nat.ltb_ge; lia).
  destruct i as [|d]; [done|].
  rewrite (MatchExpression_parse_loop_first_error context err d 1
             (drop 1 args) _ arg); try done.
  - by rewrite lookup_drop.
  - rewrite length_drop. lia.
  - intros d' a Hlt Ho Ha. rewrite lookup_drop in Ha.
    apply (Hbefore (1 + d') a); [lia|done|done].
Qed.

(** C9 (as amended).  When the label argument at the odd position [i]
    normalizes to an empty array, parsing fails; and when every label
    argument before it has at least one value and no value whose [typeof]
    is ["object"], the error is "Expected at least one input value."
    located at [<key>.<i+1>]. *)
Theorem match_empty_label_set
    (fuel : nat) (args : list Raw) (context : ParsingContext)
    (i : nat) (arg : Raw) :
  definitions context !! "match" = Some MatchExpression ->
  i mod 2 = 1 ->
  i + 1 < length args ->
  args !! i = Some arg ->
  inputGroup_of arg = [] ->
  (exists err,
     parseExpression (S fuel) (RArray (RString "match" :: args)) context
     = Throw err) /\
  ((forall j a, j < i -> j mod 2 = 1 -> args !! j = Some a ->
                valid_labels a) ->
   parseExpression (S fuel) (RArray (RString "match" :: args)) context
   = throw (key context +:+ "." +:+ pretty (i + 1))
           "Expected at least one input value.").
Proof.
  intros Hm Hodd Hlen Hi Hempty.
  rewrite parseExpression_match by done.
  assert (Hcheck : label_check context i arg
                   = throw (key context +:+ "." +:+ pretty (i + 1))
                           "Expected at least one input value.")
    by (unfold label_check; by rewrite Hempty).
  split.
  - by eapply (MatchExpression_parse_some_error _ _ args context i arg).
  - intros Hbefore.
    by apply (MatchExpression_parse_first_error _ _ args context i arg).
Qed.

Lemma valid_labels_number n : valid_labels (RArray [RNumber n]).
Proof. split; [done|]. by repeat constructor. Qed.

Lemma match_empty_label_set_witness :
  parseExpression 1
    (RArray [RString "match"; RString "x"; RArray [RNumber 1]; RString "a";
             RArray []; RString "b"; RString "f"])
    example_context
  = throw ".4" "Expected at least one input value.".
Proof.
  apply (match_empty_label_set 0
           [RString "x"; RArray [RNumber 1]; RString "a"; RArray [];
            RString "b"; RString "f"]
           example_context 3 (RArray []));
    [reflexivity | reflexivity | simpl; lia | reflexivity | reflexivity |].
  intros j a Hlt Hodd Ha.
  destruct j as [|[|[|j]]]; try (simpl in Hodd; discriminate); [|lia].
  injection Ha as <-. apply valid_labels_number.
Defined.

(** C9 (as stated) fails: the label at position 3 is empty, but the error
    reported is the one of the label at position 1. *)
Lemma match_empty_label_set_not_reported :
  let args := [RString "x"; RArray [RNull]; RString "a"; RArray [];
               RString "b"; RString "f"] in
  args !! 3 = Some (RArray []) /\
  inputGroup_of (RArray []) = [] /\
  parseExpression 1 (RArray (RString "match" :: args)) example_context
  = throw ".2.0" match_inputs_message /\
  parseExpression 1 (RArray (RString "match" :: args)) example_context
  <> throw ".4" "Expected at least one input value.".
Proof. repeat split; by vm_compute. Qed.

(** C10 (as amended).  [null] is a literal the parser accepts as an
    expression, but its [typeof] is ["object"]: when [null] is a value of
    the label argument at the odd position [i], at index [j] of the
    normalized label array, parsing fails; and when no earlier label
    argument fails its checks and no earlier value of this one has [typeof]
    ["object"], the error is "Match inputs must be literal primitive values
    or arrays of literal primitive values." located at
    [<key>.<i+1>.<j>]. *)
Theorem match_null_label
    (fuel : nat) (args : list Raw) (context : ParsingContext)
    (i j : nat) (arg : Raw) :
  definitions context !! "match" = Some MatchExpression ->
  i mod 2 = 1 ->
  i + 1 < length args ->
  args !! i = Some arg ->
  inputGroup_of arg !! j = Some RNull ->
  typeof RNull = "object" /\
  parseExpression (S fuel) RNull context
  = Ok (LiteralExpression (key context) NullType RNull) /\
  (exists err,
     parseExpression (S fuel) (RArray (RString "match" :: args)) context
     = Throw err) /\
  ((forall j' v, j' < j -> inputGroup_of arg !! j' = Some v ->
                 typeof v <> "object") ->
   (forall i' a, i' < i -> i' mod 2 = 1 -> args !! i' = Some a ->
                 valid_labels a) ->
   parseExpression (S fuel) (RArray (RString "match" :: args)) context
   = throw (key context +:+ "." +:+ pretty (i + 1) +:+ "." +:+ pretty j)
           match_inputs_message).
Proof.
  intros Hm Hodd Hlen Hi Hj.
  split; [done|]. split; [done|].
  rewrite parseExpression_match by done. split.
  - destruct (label_check_object context i arg j RNull Hj eq_refl)
      as [err Herr].
    by apply (MatchExpression_parse_some_error _ _ args context i arg err).
  - intros Hvalues Hbefore.
    apply (MatchExpression_parse_first_error _ _ args context i arg);
      try done.
    unfold label_check.
    destruct (inputGroup_of arg) as [|v rest] eqn:Hg; [done|]. simpl length.
    cbn [Nat.eqb].
    by rewrite (check_inputGroup_first_object context i (v :: rest) 0 j RNull).
Qed.

Lemma match_null_label_witness :
  parseExpression 1
    (RArray [RString "match"; RString "x"; RNumber 1; RString "a";
             RArray [RString "p"; RNull]; RString "b"; RString "f"])
    example_context
  = throw ".4.1" match_inputs_message.
Proof.
  apply (match_null_label 0
           [RString "x"; RNumber 1; RString "a";
            RArray [RString "p"; RNull]; RString "b"; RString "f"]
           example_context 3 1 (RArray [RString "p"; RNull]));
    [reflexivity | reflexivity | simpl; lia | reflexivity | reflexivity | |].
  - intros j' v Hlt Hv. destruct j' as [|j']; [|lia].
    injection Hv as <-. discriminate.
  - intros i' a Hlt Hodd Ha.
    destruct i' as [|[|[|i']]]; try (simpl in Hodd; discriminate); [|lia].
    injection Ha as <-. split; [done|]. by repeat constructor.
Defined.

(** C10 (as stated) fails: the label at position 3 is [null], but parsing
    stops at the empty label array at position 1, with another error. *)
Lemma match_null_label_not_reported :
  let args := [RString "x"; RArray []; RString "a"; RNull;
               RString "b"; RString "f"] in
  args !! 3 = Some RNull /\
  inputGroup_of RNull !! 0 = Some RNull /\
  parseExpression 1 (RArray (RString "match" :: args)) example_context
  = throw ".2" "Expected at least one input value." /\
  parseExpression 1 (RArray (RString "match" :: args)) example_context
  <> throw ".4.0" match_inputs_message.
Proof. repeat split; by vm_compute. Qed.

(** ** Serialization after parsing *)

Lemma normalize_match defs name cls args :
  String.eqb name "literal" = false ->
  defs !! name = Some cls ->
  parse_kind cls = MatchParse ->
  normalize defs (RArray (RString name :: args))
  = RArray (RString name :: normalize_match_args defs 0 args).
Proof.
  intros Hn Hd Hk. cbn [normalize]. rewrite Hn, Hd, Hk. f_equal. f_equal.
  match goal with
  | |- ?go 0 args = _ =>
      assert (H : forall i, go i args = normalize_match_args defs i args)
  end; [|apply H].
  induction args as [|x [|y rest] IH]; intros i; try done.
  cbn [normalize_match_args]. f_equal. apply IH.
Qed.

Lemma normalize_wrap_labels defs arg :
  normalize defs (wrap_labels arg) = wrap_labels arg.
Proof. done. Qed.

Lemma append_empty_r (s : string) : s +:+ "" = s.
Proof.
  induction s as [|c s IH]; [done|].
  change (String c (s +:+ "") = String c s). by rewrite IH.
Qed.

Lemma MatchExpression_parse_loop_ok context :
  forall rest i acc out,
    MatchExpression_parse_loop context i rest acc = Ok out ->
    out = acc ++ normalized_middle i rest.
Proof.
  induction rest as [|arg rest IH]; intros i acc out.
  - simpl. intros [= <-]. by rewrite app_nil_r.
  - destruct rest as [|x rest].
    + simpl. intros [= <-]. by rewrite app_nil_r.
    + destruct (decide (i mod 2 = 1)) as [Hi|Hi].
      * rewrite MatchExpression_parse_loop_odd by done.
        destruct (label_check context i arg); cbn [bind]; try done.
        intros H. apply IH in H as ->.
        cbn [normalized_middle]. rewrite (proj2 (Nat.eqb_eq _ _) Hi).
        by rewrite <- app_assoc.
      * rewrite MatchExpression_parse_loop_even by done.
        intros H. apply IH in H as ->.
        cbn [normalized_middle]. rewrite (proj2 (Nat.eqb_neq _ _) Hi).
        by rewrite <- app_assoc.
Qed.

Lemma normalized_middle_cons i x y rest :
  normalized_middle i (x :: y :: rest)
  = (if (i mod 2 =? 1)%nat then wrap_labels x else x)
    :: normalized_middle (S i) (y :: rest).
Proof. done. Qed.

Lemma normalize_match_args_cons defs i x y rest :
  normalize_match_args defs i (x :: y :: rest)
  = (if (i mod 2 =? 1)%nat then wrap_labels x else normalize defs x)
    :: normalize_match_args defs (S i) (y :: rest).
Proof. done. Qed.

Lemma normalized_middle_normalize defs :
  forall rest i x,
    List.map (normalize defs)
      (normalized_middle i (x :: rest) ++ [default RUndefined (last (x :: rest))])
    = normalize_match_args defs i (x :: rest).
Proof.
  induction rest as [|y rest IH]; intros i x; [done|].
  rewrite normalized_middle_cons, normalize_match_args_cons, last_cons_cons.
  rewrite <- app_comm_cons. cbn [List.map]. rewrite IH.
  by destruct (i mod 2 =? 1)%nat.
Qed.

Lemma parsed_from_map self op context (f : Expression -> Raw)
    (g : Raw -> Raw) :
  (forall arg i e,
     self arg (concat context i (Some op)) = Ok e -> f e = g arg) ->
  forall n args parsed,
    parsed_from self op context n args parsed ->
    List.map f parsed = List.map g args.
Proof.
  intros Hfg n args parsed. induction 1 as [|n arg rest e es He _ IH];
    simpl; [done|].
  by rewrite IH, (Hfg _ _ _ He).
Qed.

Lemma serialize_after_parse_lambda type_name fuel this args context node :
  (forall expr ctx nd,
     definitions ctx = definitions context ->
     parseExpression fuel expr ctx = Ok nd ->
     serialize type_name false nd = normalize (definitions context) expr) ->
  LambdaExpression_parse (parseExpression fuel) this args context = Ok node ->
  serialize type_name false node
  = RArray (RString (getName this)
            :: List.map (normalize (definitions context)) args).
Proof.
  intros IH H. apply LambdaExpression_parse_ok in H as (parsed & Hp & ->).
  cbn [serialize]. rewrite append_empty_r. f_equal. f_equal.
  eapply parsed_from_map; [|exact Hp].
  intros arg i e He. by apply (IH arg _ e) in He.
Qed.

(** C5 (as amended).  Under a registry that files each operator under its
    own name, serializing, without type annotations, the tree parsed from
    an accepted expression gives the expression in the form [normalize]
    describes: a ["literal"]-wrapped scalar comes back bare, a
    ["literal"]-wrapped colour as an ["rgba"] application, each label
    argument of a [match] application as [["literal", labels]] with a bare
    label promoted to a one-element array, and all the rest unchanged. *)
Theorem serialize_after_parse
    (type_name : Ty -> string) (fuel : nat) (expr : Raw)
    (context : ParsingContext) (node : Expression) :
  registry_consistent (definitions context) ->
  parseExpression fuel expr context = Ok node ->
  serialize type_name false node = normalize (definitions context) expr.
Proof.
  intros Hreg. revert expr context node Hreg.
  induction fuel as [|fuel IH]; intros expr context node Hreg; [done|].
  assert (IH' : forall e ctx nd,
            definitions ctx = definitions context ->
            parseExpression fuel e ctx = Ok nd ->
            serialize type_name false nd = normalize (definitions context) e).
  { intros e ctx nd Hd He. rewrite <- Hd. apply IH; [by rewrite Hd | done]. }
  simpl. unfold parseExpression_body.
  destruct expr as [| |s|b|n|r g b a|items|props]; try done;
    try (by intros [= <-]).
  destruct items as [|op args]; [done|].
  destruct op as [| |name| | | | |]; try done.
  destruct (String.eqb name "literal") eqn:Hname.
  - apply String.eqb_eq in Hname as ->.
    unfold LiteralExpression_parse.
    destruct args as [|arg0 [|]]; try done.
    destruct (isValue arg0) eqn:Hv; simpl; [|done].
    intros [= <-]. by destruct arg0.
  - destruct (definitions context !! name) as [Expr|] eqn:Hdef; [|done].
    pose proof (Hreg _ _ Hdef) as Hgn.
    unfold ExprClass_parse.
    destruct (parse_kind Expr) eqn:Hkind.
    + intros H.
      rewrite (serialize_after_parse_lambda _ _ _ _ _ _ IH' H), Hgn.
      cbn [normalize]. by rewrite Hname, Hdef, Hkind.
    + unfold MatchExpression_parse.
      destruct (length args <? 2)%nat eqn:Hlen; [done|].
      apply Nat.ltb_ge in Hlen.
      destruct (MatchExpression_parse_loop _ _ _ _) as [out| |] eqn:Hloop;
        cbn [bind]; try done.
      apply MatchExpression_parse_loop_ok in Hloop as ->.
      intros H.
      rewrite (serialize_after_parse_lambda _ _ _ _ _ _ IH' H), Hgn.
      rewrite (normalize_match _ _ _ _ Hname Hdef Hkind). f_equal. f_equal.
      destruct args as [|arg0 [|x rest]]; simpl in Hlen; try lia.
      change (drop 1 (arg0 :: x :: rest)) with (x :: rest).
      rewrite last_cons_cons.
      cbn [lookup list_lookup default id app List.map].
      rewrite normalized_middle_normalize.
      by rewrite normalize_match_args_cons.
Qed.

Lemma example_definitions_consistent :
  registry_consistent example_definitions.
Proof.
  intros name cls H. unfold example_definitions in H.
  rewrite lookup_insert_Some in H. destruct H as [[<- <-]|[_ H]]; [done|].
  rewrite lookup_insert_Some in H. destruct H as [[<- <-]|[_ H]]; [done|].
  by rewrite lookup_empty in H.
Qed.

Lemma serialize_after_parse_witness :
  serialize (fun _ => "") false example_match_node
  = RArray [RString "match"; RArray [RString "get"; RString "x"];
            RArray [RString "literal"; RArray [RNumber 1]];
            RString "a"; RString "b"].
Proof.
  apply (serialize_after_parse (fun _ => "") 3 example_match
           example_context example_match_node).
  - exact example_definitions_consistent.
  - by vm_compute.
Defined.

(** C5 (as stated) fails: a ["literal"]-wrapped number is accepted and
    comes back bare, and the label array of a [match] application comes
    back wrapped in ["literal"]. *)
Lemma serialize_after_parse_differs :
  (exists node,
     parseExpression 1 (RArray [RString "literal"; RNumber 5]) example_context
       = Ok node /\
     serialize (fun _ => "") false node = RNumber 5 /\
     serialize (fun _ => "") false node
       <> RArray [RString "literal"; RNumber 5]) /\
  (exists node,
     parseExpression 3 example_match example_context = Ok node /\
     serialize (fun _ => "") false node
     = RArray [RString "match"; RArray [RString "get"; RString "x"];
               RArray [RString "literal"; RArray [RNumber 1]];
               RString "a"; RString "b"] /\
     serialize (fun _ => "") false node <> example_match).
Proof.
  split.
  - exists (LiteralExpression "" NumberType (RNumber 5)).
    repeat split; by vm_compute.
  - exists example_match_node. repeat split; by vm_compute.
Qed.

(** ** The dispatch table of a compiled [match] *)

Lemma MatchExpression_add_values_lookup i values :
  forall (m : gmap string nat) k,
    MatchExpression_add_values i values m !! k
    = if decide (k ∈ compile_key <$> values) then Some i else m !! k.
Proof.
  unfold MatchExpression_add_values.
  induction values as [|v values IH]; intros m k.
  - rewrite fmap_nil. cbn [foldl].
    destruct (decide (k ∈ [])) as [H|H]; [by apply elem_of_nil in H | done].
  - rewrite fmap_cons. cbn [foldl]. rewrite IH.
    destruct (decide (k ∈ compile_key <$> values)) as [Hin|Hin].
    + rewrite decide_True; [done|]. apply elem_of_cons. by right.
    + destruct (decide (k = compile_key v)) as [->|Hne].
      * rewrite lookup_insert_eq. rewrite decide_True; [done|].
        apply elem_of_cons. by left.
      * rewrite lookup_insert_ne by done. rewrite decide_False; [done|].
        intros [?|?]%elem_of_cons; done.
Qed.

Lemma label_keys_array e values :
  Expression_value e = RArray values ->
  label_keys e = compile_key <$> values.
Proof. intros H. unfold label_keys, labels. by rewrite H. Qed.

(** A key that no remaining branch lists keeps its entry. *)
Lemma MatchExpression_inputMap_loop_miss rest :
  forall i (m m' : gmap string nat) k,
    MatchExpression_inputMap_loop i rest m = Compiled m' ->
    (forall e, e ∈ rest -> k ∉ label_keys e) ->
    m' !! k = m !! k.
Proof.
  induction rest as [|e rest IH]; intros i m m' k; simpl.
  - by intros [= <-].
  - destruct (Expression_value e) as [| | | | | |values|] eqn:Hv; try done.
    intros H Hmiss. rewrite (IH _ _ _ k H).
    + rewrite MatchExpression_add_values_lookup.
      rewrite decide_False; [done|].
      rewrite <- (label_keys_array e values Hv).
      apply Hmiss, elem_of_cons. by left.
    + intros e' He'. apply Hmiss, elem_of_cons. by right.
Qed.

(** A key listed by the branch [j], and by no later branch, is mapped to
    that branch. *)
Lemma MatchExpression_inputMap_loop_hit rest :
  forall i (m m' : gmap string nat) k j e,
    MatchExpression_inputMap_loop i rest m = Compiled m' ->
    rest !! j = Some e ->
    k ∈ label_keys e ->
    (forall j' e', j < j' -> rest !! j' = Some e' -> k ∉ label_keys e') ->
    m' !! k = Some (i + j).
Proof.
  induction rest as [|e0 rest IH]; intros i m m' k j e; simpl; [done|].
  destruct (Expression_value e0) as [| | | | | |values|] eqn:Hv; try done.
  intros H Hj Hin Hlater. destruct j as [|j]; simpl in Hj.
  - injection Hj as ->.
    rewrite (MatchExpression_inputMap_loop_miss _ _ _ _ k H).
    + rewrite MatchExpression_add_values_lookup.
      rewrite decide_True; [by rewrite Nat.add_0_r|].
      by rewrite <- (label_keys_array e values Hv).
    + intros e' [j' Hj']%list_elem_of_lookup.
      apply (Hlater (S j') e'); [lia|done].
  - rewrite (IH _ _ _ k j e H Hj Hin).
    + f_equal. lia.
    + intros j' e' Hlt Hj'. apply (Hlater (S j') e'); [lia|done].
Qed.

(** The table only holds indices of branches. *)
Lemma MatchExpression_inputMap_loop_range rest :
  forall i (m m' : gmap string nat) k n,
    MatchExpression_inputMap_loop i rest m = Compiled m' ->
    m' !! k = Some n ->
    m !! k = Some n \/ (i <= n < i + length rest).
Proof.
  induction rest as [|e rest IH]; intros i m m' k n; simpl.
  - intros [= <-]. by left.
  - destruct (Expression_value e) as [| | | | | |values|] eqn:Hv; try done.
    intros H Hk. destruct (IH _ _ _ k n H Hk) as [Hm|Hr]; [|right; lia].
    rewrite MatchExpression_add_values_lookup in Hm.
    destruct (decide (k ∈ compile_key <$> values)); [|by left].
    injection Hm as <-. right. lia.
Qed.

Lemma S_mod2 i : (S i) mod 2 = 1 <-> i mod 2 <> 1.
Proof.
  pose proof (Nat.div_mod_eq i 2). pose proof (Nat.div_mod_eq (S i) 2).
  pose proof (Nat.mod_upper_bound i 2). pose proof (Nat.mod_upper_bound (S i) 2).
  lia.
Qed.

(** [inputs] never gets ahead of [outputs] by more than the label that
    awaits its output. *)
Lemma MatchExpression_compile_loop_lengths {Env : Type}
    (rest : list (CompiledExpression Env)) :
  forall i inputs outputs inputs' outputs',
    MatchExpression_compile_loop i rest inputs outputs
      = Compiled (inputs', outputs') ->
    length inputs' + length outputs
    <= length outputs' + length inputs + (if decide (i mod 2 = 1) then 1 else 0).
Proof.
  induction rest as [|arg rest IH]; intros i ins outs ins' outs'.
  - simpl. intros [= <- <-]. lia.
  - destruct rest as [|x rest].
    + simpl. intros [= <- <-]. lia.
    + cbn [MatchExpression_compile_loop].
      destruct (decide (i mod 2 = 1)) as [Hi|Hi].
      * rewrite (proj2 (Nat.eqb_eq _ _) Hi).
        destruct (expression arg); [|done].
        intros H. apply IH in H. rewrite length_app in H. simpl in H.
        rewrite decide_False in H by (by intros ?%S_mod2). lia.
      * rewrite (proj2 (Nat.eqb_neq _ _) Hi).
        intros H. apply IH in H. rewrite length_app in H. simpl in H.
        rewrite decide_True in H by (by apply S_mod2). lia.
Qed.

(** What a successful [compile] has computed. *)
Lemma MatchExpression_compile_inv {Env : Type}
    (args : list (CompiledExpression Env)) (m : MatchJS Env) :
  MatchExpression_compile args = Compiled m ->
  exists inputs,
    MatchExpression_branches args = Compiled (inputs, outputs m) /\
    MatchExpression_inputMap inputs = Compiled (inputMap m) /\
    js <$> args !! 0 = Some (input m) /\
    length inputs <= length (outputs m) /\
    0 < length (outputs m).
Proof.
  unfold MatchExpression_compile.
  destruct (args !! 0) as [arg0|] eqn:H0; [|done].
  destruct (MatchExpression_branches args) as [[inputs outs]|] eqn:Hb; [|done].
  destruct (MatchExpression_inputMap inputs) as [map|] eqn:Hm; [|done].
  intros [= <-]. exists inputs. simpl. repeat split; try done.
  - unfold MatchExpression_branches in Hb.
    destruct (MatchExpression_compile_loop 1 (drop 1 args) [] [])
      as [[ins outs0]|] eqn:Hl; [|done].
    destruct (last args); [|done]. injection Hb as <- <-.
    apply MatchExpression_compile_loop_lengths in Hl.
    rewrite length_app. simpl in *. lia.
  - unfold MatchExpression_branches in Hb.
    destruct (MatchExpression_compile_loop 1 (drop 1 args) [] [])
      as [[ins outs0]|]; [|done].
    destruct (last args); [|done]. injection Hb as <- <-.
    rewrite length_app. simpl. lia.
Qed.

(** The last thunk is made of the text of the last argument: the
    fallback. *)
Lemma MatchExpression_branches_fallback {Env : Type}
    (args : list (CompiledExpression Env))
    (inputs : list Expression) (outs : list (option (JS Env))) :
  MatchExpression_branches args = Compiled (inputs, outs) ->
  exists otherwise,
    last args = Some otherwise /\
    outs !! (length outs - 1) = Some (arrow (js otherwise)).
Proof.
  unfold MatchExpression_branches.
  destruct (MatchExpression_compile_loop 1 (drop 1 args) [] [])
    as [[ins outs0]|]; [|done].
  destruct (last args) as [otherwise|]; [|done].
  intros [= <- <-]. exists otherwise. split; [done|].
  rewrite length_app. simpl.
  replace (length outs0 + 1 - 1) with (length outs0 + 0) by lia.
  by rewrite lookup_app_r, Nat.add_comm, Nat.add_sub by lia.
Qed.

(** On arguments of the form input, (labels, output) pairs, fallback, the
    arrays [inputs] and [outputs] pair each label literal with the thunk
    of its output. *)
Lemma MatchExpression_compile_loop_pairs {Env : Type}
    (pairs : list (CompiledExpression Env * CompiledExpression Env))
    (otherwise : CompiledExpression Env) :
  Forall (fun p => exists k t v,
            expression p.1 = LiteralExpression k t v) pairs ->
  forall i inputs outs,
    i mod 2 = 1 ->
    MatchExpression_compile_loop i
      (flat_map (fun p => [p.1; p.2]) pairs ++ [otherwise]) inputs outs
    = Compiled (inputs ++ ((fun p => expression p.1) <$> pairs),
                outs ++ ((fun p => arrow (js p.2)) <$> pairs)).
Proof.
  induction 1 as [|[l o] pairs (k & t & v & Hl) _ IH]; intros i ins outs Hi.
  - simpl. by rewrite !app_nil_r.
  - cbn [flat_map app fst snd]. cbn [fst] in Hl.
    assert (exists x rest,
              flat_map (fun p => [p.1; p.2]) pairs ++ [otherwise] = x :: rest)
      as (x & rest & Hrest).
    { destruct (flat_map _ pairs ++ [otherwise]) as [|x rest] eqn:E;
        [|by eauto].
      by apply app_eq_nil in E as [_ E]. }
    cbn [MatchExpression_compile_loop].
    rewrite (proj2 (Nat.eqb_eq _ _) Hi), Hl, Hrest.
    assert (S i mod 2 <> 1) as Hsi by (intros ?%S_mod2; done).
    rewrite (proj2 (Nat.eqb_neq _ _) Hsi), <- Hrest, <- Hl.
    rewrite IH by (by apply S_mod2).
    rewrite !fmap_cons. cbn [fst snd]. by rewrite <- !app_assoc.
Qed.

Lemma MatchExpression_branches_pairs {Env : Type}
    (input0 : CompiledExpression Env)
    (pairs : list (CompiledExpression Env * CompiledExpression Env))
    (otherwise : CompiledExpression Env) :
  Forall (fun p => exists k t v,
            expression p.1 = LiteralExpression k t v) pairs ->
  MatchExpression_branches
    (input0 :: flat_map (fun p => [p.1; p.2]) pairs ++ [otherwise])
  = Compiled ((fun p => expression p.1) <$> pairs,
              ((fun p => arrow (js p.2)) <$> pairs)
                ++ [arrow (js otherwise)]).
Proof.
  intros Hlit. unfold MatchExpression_branches.
  change (drop 1 (input0 :: ?l)) with l.
  rewrite (MatchExpression_compile_loop_pairs pairs otherwise Hlit 1 [] [])
    by done.
  cbn [app]. rewrite app_comm_cons, last_snoc. done.
Qed.

(** The array of thunks exists when every text can be read, and then holds
    the function of each text. *)
Lemma mapM_id_Some {A : Type} (l : list (option A)) (k : list A) :
  mapM id l = Some k <-> l = Some <$> k.
Proof.
  split.
  - intros H%mapM_Some_1. induction H as [|x y l k Hx _ IH]; [done|].
    simpl in Hx. by rewrite fmap_cons, Hx, IH.
  - intros ->. apply mapM_Some_2.
    induction k as [|y k IH]; by constructor.
Qed.

(** Evaluation of a source that can be read runs the thunk the table
    points to, or the last one when the key of the input is not in the
    table. *)
Lemma MatchJS_run_selected {Env : Type}
    (args : list (CompiledExpression Env)) (m : MatchJS Env)
    (inp : JS Env) (thunks : list (JS Env)) (env : Env) (v : Raw) :
  MatchExpression_compile args = Compiled m ->
  as_expression (input m) = Some inp ->
  mapM id (outputs m) = Some thunks ->
  inp env = Returned v ->
  exists (sel : nat) (thunk : JS Env),
    thunks !! sel = Some thunk /\
    MatchJS_run m env = ([sel], thunk env) /\
    (inputMap m !! runtime_key v = Some sel \/
     (inputMap m !! runtime_key v = None /\ sel = length (outputs m) - 1)).
Proof.
  intros Hc Hinp Hthunks Hin.
  destruct (MatchExpression_compile_inv args m Hc)
    as (inputs & Hb & Hm & _ & Hlen & Hpos).
  pose proof (length_mapM _ _ _ Hthunks) as Hlt'.
  destruct (inputMap m !! runtime_key v) as [k|] eqn:Hk.
  - assert (k < length thunks) as Hlt.
    { destruct (MatchExpression_inputMap_loop_range _ _ _ _ _ _ Hm Hk)
        as [He|Hr]; [by rewrite lookup_empty in He | lia]. }
    destruct (lookup_lt_is_Some_2 _ _ Hlt) as [thunk Ht].
    exists k, thunk. split; [done|]. split; [|by left].
    unfold MatchJS_run, invoke. by rewrite Hinp, Hthunks, Hin, Hk, Ht.
  - assert (length (outputs m) - 1 < length thunks) as Hlt by lia.
    destruct (lookup_lt_is_Some_2 _ _ Hlt) as [thunk Ht].
    exists (length (outputs m) - 1), thunk. split; [done|].
    split; [|by right].
    unfold MatchJS_run, invoke. by rewrite Hinp, Hthunks, Hin, Hk, Ht.
Qed.

(** A key listed by the branch [i], and by no later branch, selects the
    thunk of that branch. *)
Lemma MatchJS_run_hit {Env : Type}
    (args : list (CompiledExpression Env))
    (inputs : list Expression) (outs : list (option (JS Env)))
    (m : MatchJS Env) (inp : JS Env) (thunks : list (JS Env))
    (env : Env) (v : Raw) (i : nat) (e : Expression) :
  MatchExpression_branches args = Compiled (inputs, outs) ->
  MatchExpression_compile args = Compiled m ->
  as_expression (input m) = Some inp ->
  mapM id outs = Some thunks ->
  inp env = Returned v ->
  inputs !! i = Some e ->
  runtime_key v ∈ label_keys e ->
  (forall j e', i < j -> inputs !! j = Some e' ->
                runtime_key v ∉ label_keys e') ->
  inputMap m !! runtime_key v = Some i /\
  exists thunk : JS Env,
    thunks !! i = Some thunk /\ MatchJS_run m env = ([i], thunk env).
Proof.
  intros Hb Hc Hinp Hthunks Hin Hi Hkey Hlater.
  destruct (MatchExpression_compile_inv args m Hc)
    as (inputs0 & Hb0 & Hm & _ & _ & _).
  rewrite Hb in Hb0. injection Hb0 as <- ->.
  assert (inputMap m !! runtime_key v = Some i) as Hk.
  { by rewrite (MatchExpression_inputMap_loop_hit _ _ _ _ _ i e Hm Hi Hkey
                  Hlater). }
  split; [done|].
  destruct (MatchJS_run_selected args m inp thunks env v Hc Hinp Hthunks Hin)
    as (sel & thunk & Ht & Hrun & [Hsel|[Hnone _]]); [|congruence].
  exists thunk. rewrite Hk in Hsel. injection Hsel as <-. done.
Qed.

(** A key that occurs in the label sets of several branches is mapped by
    the table to the last of them; when the generated source can be read,
    an evaluation whose input has that key runs the thunk of that branch
    and returns its result. *)
Lemma last_listing_branch_selected {Env : Type}
    (args : list (CompiledExpression Env))
    (inputs : list Expression) (outs : list (option (JS Env)))
    (m : MatchJS Env) (k : string) (i : nat) (e : Expression) :
  MatchExpression_branches args = Compiled (inputs, outs) ->
  MatchExpression_compile args = Compiled m ->
  inputs !! i = Some e ->
  k ∈ label_keys e ->
  (forall j e', i < j -> inputs !! j = Some e' -> k ∉ label_keys e') ->
  inputMap m !! k = Some i /\
  (forall inp thunks env v,
     as_expression (input m) = Some inp ->
     mapM id outs = Some thunks ->
     inp env = Returned v ->
     runtime_key v = k ->
     exists thunk : JS Env,
       thunks !! i = Some thunk /\
       MatchJS_run m env = ([i], thunk env)).
Proof.
  intros Hb Hc Hi Hkey Hlater. split.
  - destruct (MatchExpression_compile_inv args m Hc)
      as (inputs0 & Hb0 & Hm & _ & _ & _).
    rewrite Hb in Hb0. injection Hb0 as <- _.
    by rewrite (MatchExpression_inputMap_loop_hit _ _ _ _ _ i e Hm Hi Hkey
                  Hlater).
  - intros inp thunks env v Hinp Hthunks Hin <-.
    by destruct (MatchJS_run_hit args inputs outs m inp thunks env v i e
                   Hb Hc Hinp Hthunks Hin Hi Hkey Hlater) as (_ & H).
Qed.


(** ** Keys carry the type of the value *)

Lemma runtime_key_primitive v :
  label_primitive v -> runtime_key v = compile_key v.
Proof. by destruct v. Qed.

Lemma compile_key_inj a b :
  label_primitive a -> label_primitive b ->
  compile_key a = compile_key b -> a = b.
Proof.
  unfold compile_key.
  destruct a as [| |s|x|n| | |], b as [| |s'|x'|n'| | |]; try done;
    cbn [typeof String_]; intros _ _ H; try (by vm_compute in H).
  - by apply (inj (String.app "string")), (inj (String.app "-")) in H as ->.
  - destruct x, x'; try done; by vm_compute in H.
  - apply (inj (String.app "number")), (inj (String.app "-")) in H.
    by apply (inj pretty) in H as ->.
Qed.

(** Keys combine the type of a label with its text, so two distinct labels
    never share a key; when the generated source can be read, an input that
    is a string, number or boolean selects the last branch that lists that
    very value, and an input whose key is not in the table selects the last
    thunk, made of the text of the fallback. *)
Lemma keys_select_by_type_and_value {Env : Type}
    (args : list (CompiledExpression Env))
    (inputs : list Expression) (outs : list (option (JS Env)))
    (m : MatchJS Env) (inp : JS Env) (thunks : list (JS Env))
    (env : Env) (v : Raw) :
  MatchExpression_branches args = Compiled (inputs, outs) ->
  MatchExpression_compile args = Compiled m ->
  as_expression (input m) = Some inp ->
  mapM id outs = Some thunks ->
  inp env = Returned v ->
  Forall (fun e => Forall label_primitive (labels e)) inputs ->
  (forall a b, label_primitive a -> label_primitive b -> a <> b ->
               compile_key a <> compile_key b) /\
  (forall i e,
     label_primitive v ->
     inputs !! i = Some e ->
     v ∈ labels e ->
     (forall j e', i < j -> inputs !! j = Some e' -> v ∉ labels e') ->
     exists thunk : JS Env,
       thunks !! i = Some thunk /\ MatchJS_run m env = ([i], thunk env)) /\
  (inputMap m !! runtime_key v = None ->
   exists otherwise (thunk : JS Env),
     last args = Some otherwise /\
     arrow (js otherwise) = Some thunk /\
     MatchJS_run m env = ([length outs - 1], thunk env)).
Proof.
  intros Hb Hc Hinp Hthunks Hin Hprim. split; [|split].
  - intros a b Ha Hb' Hne Hkey. by apply Hne, compile_key_inj.
  - intros i e Hv Hi Hmem Hlater.
    destruct (MatchJS_run_hit args inputs outs m inp thunks env v i e
                Hb Hc Hinp Hthunks Hin Hi) as (_ & thunk & Ht & Hrun).
    + rewrite runtime_key_primitive by done.
      by apply list_elem_of_fmap_2.
    + intros j e' Hlt Hj. rewrite runtime_key_primitive by done.
      intros (b & Hkey & Hbin)%list_elem_of_fmap.
      apply (Hlater j e' Hlt Hj).
      assert (label_primitive b) as Hbp.
      { pose proof (Forall_lookup_1 _ _ _ _ Hprim Hj) as He'.
        by apply (proj1 (Forall_forall _ _) He'). }
      by rewrite (compile_key_inj v b Hv Hbp Hkey).
    + eauto.
  - intros Hnone.
    destruct (MatchExpression_compile_inv args m Hc)
      as (inputs0 & Hb0 & _ & _ & _ & _).
    rewrite Hb in Hb0. injection Hb0 as <- ->.
    destruct (MatchJS_run_selected args m inp thunks env v Hc Hinp Hthunks Hin)
      as (sel & thunk & Ht & Hrun & [Hsel|[_ ->]]); [congruence|].
    destruct (MatchExpression_branches_fallback args inputs (outputs m) Hb)
      as (otherwise & Hlast & Hthunk).
    exists otherwise, thunk. split; [done|]. split; [|done].
    apply mapM_id_Some in Hthunks. rewrite Hthunks in Hthunk.
    rewrite length_fmap, list_lookup_fmap in Hthunk.
    rewrite Hthunks, length_fmap in Ht. rewrite Ht in Hthunk.
    by injection Hthunk as <-.
Qed.

(** C7 (as stated) is not what the code does on a fallback that is an
    object literal.  Here the fallback is the literal [{}], whose text
    [{}] is, after [() =>], the empty block.  The number [0] and the
    string ["0"] have distinct keys and the input [5] has a key that is
    not in the table, so the last thunk runs: it returns [undefined], not
    the value of the fallback. *)
Theorem match_object_fallback_returns_undefined :
  exists m,
    MatchExpression_compile object_fallback = Compiled m /\
    inputMap m !! runtime_key (RNumber 0) = Some 0 /\
    inputMap m !! runtime_key (RString "0") = Some 1 /\
    inputMap m !! runtime_key (RNumber 5) = None /\
    as_expression (js (compiled_literal "6" (RObject [])))
      = Some (fun _ => Returned (RObject [])) /\
    MatchJS_run m (RNumber 5) = ([2], Returned RUndefined).
Proof.
  eexists. split; [by vm_compute|]. repeat split; by vm_compute.
Qed.

(** ** Laziness of the branches *)





(** ** The examples, evaluated *)

(** [["match", input, [1], "a", [1], "b", "fallback"]] resolves the input
    [1] to ["b"]. *)
Example duplicate_labels_select_last :
  inputMap duplicate_labels_js !! "number-1" = Some 1 /\
  MatchJS_run duplicate_labels_js (RNumber 1)
  = ([1], Returned (RString "b")).
Proof.
  destruct (last_listing_branch_selected duplicate_labels
              [expression (compiled_literal "2" (RArray [RNumber 1]));
               expression (compiled_literal "4" (RArray [RNumber 1]))]
              (outputs duplicate_labels_js) duplicate_labels_js
              "number-1" 1
              (expression (compiled_literal "4" (RArray [RNumber 1]))))
    as [Htable Hrun].
  - by vm_compute.
  - by vm_compute.
  - reflexivity.
  - vm_compute. apply elem_of_cons. by left.
  - intros j e' Hlt Hj. destruct j as [|[|j]]; [lia|lia|done].
  - split; [exact Htable|].
    destruct (Hrun (fun env => Returned env)
                [fun _ => Returned (RString "a");
                 fun _ => Returned (RString "b");
                 fun _ => Returned (RString "fallback")]
                (RNumber 1) (RNumber 1) eq_refl eq_refl eq_refl eq_refl)
      as (thunk & Ht & Hr).
    injection Ht as <-. exact Hr.
Qed.

Lemma tagged_labels_primitive :
  Forall (fun e => Forall label_primitive (labels e)) tagged_labels_inputs.
Proof. repeat constructor. Qed.

(** With branches labelled [0] and ["0"], the string ["0"] selects the
    second and the number [5] the fallback. *)
Example tagged_labels_select_by_type :
  compile_key (RNumber 0) <> compile_key (RString "0") /\
  MatchJS_run tagged_labels_js (RString "0") = ([1], Returned (RString "str")) /\
  MatchJS_run tagged_labels_js (RNumber 5) = ([2], Returned (RString "other")).
Proof.
  pose (thunks := [(fun _ => Returned (RString "num")) : JS Raw;
                   fun _ => Returned (RString "str");
                   fun _ => Returned (RString "other")]).
  destruct (keys_select_by_type_and_value tagged_labels tagged_labels_inputs
              tagged_labels_outputs tagged_labels_js
              (fun env => Returned env) thunks (RString "0") (RString "0"))
    as (Hdistinct & Hselect & _);
    [by vm_compute | by vm_compute | reflexivity | reflexivity | reflexivity
    | exact tagged_labels_primitive |].
  destruct (keys_select_by_type_and_value tagged_labels tagged_labels_inputs
              tagged_labels_outputs tagged_labels_js
              (fun env => Returned env) thunks (RNumber 5) (RNumber 5))
    as (_ & _ & Hmiss);
    [by vm_compute | by vm_compute | reflexivity | reflexivity | reflexivity
    | exact tagged_labels_primitive |].
  split; [by apply Hdistinct|]. split.
  - destruct (Hselect 1
                (expression (compiled_literal "4" (RArray [RString "0"]))))
      as (thunk & Ht & Hrun).
    + exact I.
    + reflexivity.
    + apply elem_of_cons. by left.
    + intros j e' Hlt Hj. destruct j as [|[|j]]; [lia|lia|done].
    + injection Ht as <-. exact Hrun.
  - destruct Hmiss as (otherwise & thunk & Hlast & Harrow & Hrun);
      [by vm_compute|].
    injection Hlast as <-. injection Harrow as <-. exact Hrun.
Qed.


(** ** Adequacy of the recursion budget

    More fuel never changes an answer, and every expression has an answer
    for some fuel: [parseExpression] is a total function of the expression
    and the context. *)

Lemma LambdaExpression_parse_loop_answers self self' op context args :
  answers_as self self' ->
  forall parsedArgs r,
    LambdaExpression_parse_loop self op context parsedArgs args = r ->
    r <> OutOfFuel ->
    LambdaExpression_parse_loop self' op context parsedArgs args = r.
Proof.
  intros Hself. induction args as [|arg rest IH]; intros acc r; [done|].
  cbn [LambdaExpression_parse_loop].
  destruct (self arg (concat context (1 + length acc) (Some op)))
    as [e| |] eqn:He; cbn [bind].
  - rewrite (Hself _ _ _ He) by done. cbn [bind]. apply IH.
  - rewrite (Hself _ _ _ He) by done. by cbn [bind].
  - by intros <-.
Qed.

Lemma LambdaExpression_parse_answers self self' this args context r :
  answers_as self self' ->
  LambdaExpression_parse self this args context = r ->
  r <> OutOfFuel ->
  LambdaExpression_parse self' this args context = r.
Proof.
  intros Hself. unfold LambdaExpression_parse.
  destruct (LambdaExpression_parse_loop self (getName this) context [] args)
    as [parsed| |] eqn:Hl; cbn [bind].
  - by rewrite (LambdaExpression_parse_loop_answers _ _ _ _ _ Hself _ _ Hl).
  - by rewrite (LambdaExpression_parse_loop_answers _ _ _ _ _ Hself _ _ Hl).
  - by intros <-.
Qed.

Lemma parseExpression_body_answers self self' :
  answers_as self self' ->
  answers_as (parseExpression_body self) (parseExpression_body self').
Proof.
  intros Hself expr context r. unfold parseExpression_body.
  destruct expr as [| |s|b|n|r0 g b a|items|props]; try done.
  destruct items as [|op args]; [done|].
  destruct op as [| |name| | | | |]; try done.
  destruct (String.eqb name "literal"); [done|].
  destruct (definitions context !! name) as [Expr|]; [|done].
  unfold ExprClass_parse, MatchExpression_parse.
  destruct (parse_kind Expr).
  - by apply LambdaExpression_parse_answers.
  - destruct (length args <? 2)%nat; [done|].
    destruct (MatchExpression_parse_loop _ _ _ _); cbn [bind]; try done.
    by apply LambdaExpression_parse_answers.
Qed.

Lemma parseExpression_fuel_mono n :
  forall m, n <= m -> answers_as (parseExpression n) (parseExpression m).
Proof.
  induction n as [|n IH]; intros m Hle.
  - intros expr context r <-. done.
  - destruct m as [|m]; [lia|]. simpl.
    apply parseExpression_body_answers, IH. lia.
Qed.

(** Induction on values, with the hypothesis for the items of an array. *)
Lemma Raw_ind_items (P : Raw -> Prop) :
  P RUndefined -> P RNull ->
  (forall s, P (RString s)) -> (forall b, P (RBoolean b)) ->
  (forall n, P (RNumber n)) -> (forall r g b a, P (RColor r g b a)) ->
  (forall items, Forall P items -> P (RArray items)) ->
  (forall props, P (RObject props)) ->
  forall x, P x.
Proof.
  intros Hu Hn Hs Hb Hz Hc Ha Ho.
  fix IH 1.
  intros [| |s|b|n|r g b a|items|props];
    [exact Hu | exact Hn | apply Hs | apply Hb | apply Hz | apply Hc
    | | apply Ho].
  apply Ha. induction items as [|x items IHitems]; constructor;
    [apply IH | exact IHitems].
Qed.

Lemma MatchExpression_parse_loop_terminates context rest :
  forall i acc,
    MatchExpression_parse_loop context i rest acc <> OutOfFuel.
Proof.
  induction rest as [|arg rest IH]; intros i acc; [done|].
  destruct rest as [|x rest]; [done|].
  destruct (decide (i mod 2 = 1)) as [Hi|Hi].
  - rewrite MatchExpression_parse_loop_odd by done.
    destruct (label_check_outcome context i arg) as [->|[err ->]];
      [apply IH | done].
  - rewrite MatchExpression_parse_loop_even by done. apply IH.
Qed.

Lemma LambdaExpression_parse_terminates self this args context :
  Forall (fun arg => forall c, self arg c <> OutOfFuel) args ->
  LambdaExpression_parse self this args context <> OutOfFuel.
Proof.
  intros HF. unfold LambdaExpression_parse.
  assert (forall acc,
            LambdaExpression_parse_loop self (getName this) context acc args
            <> OutOfFuel) as Hl.
  { induction HF as [|arg rest Harg _ IH]; intros acc; [done|].
    cbn [LambdaExpression_parse_loop].
    destruct (self arg _) as [e| |] eqn:He; cbn [bind]; [apply IH|done|].
    by apply Harg in He. }
  specialize (Hl []). by destruct (LambdaExpression_parse_loop _ _ _ _ _).
Qed.

Lemma normalized_middle_Forall (P : Raw -> Prop) rest :
  Forall P rest ->
  (forall arg, P (wrap_labels arg)) ->
  forall i, Forall P (normalized_middle i rest).
Proof.
  intros HF Hw. induction HF as [|arg rest Harg HF IH]; intros i;
    [constructor|].
  destruct rest as [|x rest]; [constructor|].
  rewrite normalized_middle_cons. constructor; [|apply IH].
  by destruct (i mod 2 =? 1)%nat.
Qed.

Theorem parseExpression_terminates (expr : Raw) :
  exists fuel, forall context,
    parseExpression fuel expr context <> OutOfFuel.
Proof.
  induction expr as [| |s|b|n|r g b a|items IH|props] using Raw_ind_items;
    try (by exists 1).
  assert (exists N, 1 <= N /\
            Forall (fun arg => forall c, parseExpression N arg c <> OutOfFuel)
                   items) as (N & HN & HF).
  { induction IH as [|x items [n Hn] _ (N & HN & HF)].
    - exists 1. split; [lia | constructor].
    - exists (n `max` N). split; [lia|]. constructor.
      + intros c H.
        apply (Hn c). destruct (parseExpression n x c) eqn:He; try done.
        * by rewrite (parseExpression_fuel_mono n (n `max` N)
                        ltac:(lia) _ _ _ He) in H.
        * by rewrite (parseExpression_fuel_mono n (n `max` N)
                        ltac:(lia) _ _ _ He) in H.
      + eapply Forall_impl; [exact HF|]. intros y Hy c H.
        apply (Hy c). destruct (parseExpression N y c) eqn:He; try done.
        * by rewrite (parseExpression_fuel_mono N (n `max` N)
                        ltac:(lia) _ _ _ He) in H.
        * by rewrite (parseExpression_fuel_mono N (n `max` N)
                        ltac:(lia) _ _ _ He) in H. }
  exists (S N). intros context. simpl. unfold parseExpression_body.
  destruct items as [|op args]; [done|].
  destruct op as [| |name| | | | |]; try done.
  destruct (String.eqb name "literal").
  { unfold LiteralExpression_parse. destruct args as [|a [|]]; try done.
    by destruct (isValue a). }
  destruct (definitions context !! name) as [Expr|]; [|done].
  apply Forall_cons in HF as [_ HF].
  unfold ExprClass_parse, MatchExpression_parse.
  destruct (parse_kind Expr).
  - by apply LambdaExpression_parse_terminates.
  - destruct (length args <? 2)%nat eqn:Hlen; [done|].
    apply Nat.ltb_ge in Hlen.
    destruct (MatchExpression_parse_loop _ _ _ _) as [out| |] eqn:Hloop;
      cbn [bind]; [|done|by apply MatchExpression_parse_loop_terminates in Hloop].
    apply MatchExpression_parse_loop_ok in Hloop as ->.
    apply LambdaExpression_parse_terminates.
    assert (forall arg c,
              parseExpression N (wrap_labels arg) c <> OutOfFuel) as Hw.
    { intros arg c. destruct N as [|N]; [lia|].
      cbn [parseExpression parseExpression_body wrap_labels String.eqb
           Ascii.eqb Bool.eqb LiteralExpression_parse].
      by destruct (isValue (RArray (inputGroup_of arg))). }
    destruct args as [|arg0 [|x rest]]; simpl in Hlen; try lia.
    apply Forall_cons in HF as [H0 HF].
    change (drop 1 (arg0 :: x :: rest)) with (x :: rest).
    rewrite last_cons_cons.
    cbn [lookup list_lookup default id].
    apply Forall_app. split; [apply Forall_app; split|].
    + by constructor.
    + by apply normalized_middle_Forall.
    + constructor; [|constructor].
      destruct (last (x :: rest)) as [l|] eqn:Hlast.
      * apply last_Some_elem_of in Hlast.
        by apply (proj1 (Forall_forall _ _) HF).
      * intros c. destruct N as [|N]; [lia|done].
Qed.

(** * Further properties *)

(** ** More on array literal type inference *)

Lemma primitiveTypes_item_dec p item :
  primitiveTypes (typeof item) = Some (primitive p) \/
  primitiveTypes (typeof item) <> Some (primitive p).
Proof.
  destruct (primitiveTypes (typeof item)) as [t|] eqn:Ht; [|by right].
  destruct (primitiveTypes_primitive _ _ Ht) as [q ->].
  destruct (decide (q = p)) as [->|Hne]; [by left|].
  right. by intros [= ->].
Qed.

(** Either the items have a common entry of [primitiveTypes], or they have
    none. *)
Lemma uniform_or_not value :
  (exists t, uniform t value) \/ (forall t, ~ uniform t value).
Proof.
  destruct value as [|item rest]; [right; by intros t [? _]|].
  destruct (primitiveTypes (typeof item)) as [t|] eqn:Ht.
  - destruct (primitiveTypes_primitive _ _ Ht) as [p ->].
    assert (Forall (fun x => primitiveTypes (typeof x) = Some (primitive p)) rest
            \/ ~ Forall (fun x => primitiveTypes (typeof x)
                                  = Some (primitive p)) rest) as [HF|HF].
    { induction rest as [|x rest [IH|IH]].
      - left. constructor.
      - destruct (primitiveTypes_item_dec p x) as [Hx|Hx].
        + left. by constructor.
        + right. intros H. by inversion H.
      - right. intros H. by inversion H. }
    + left. exists (primitive p). split; [done|]. by constructor.
    + right. intros t [_ H]. inversion H as [|? ? Hi Hr]; subst.
      rewrite Ht in Hi. injection Hi as <-. done.
  - right. intros t [_ H]. inversion H as [|? ? Hi Hr]. congruence.
Qed.

Lemma inferArrayType_uniform t value :
  uniform t value -> inferArrayType value = array t (Some (length value)).
Proof.
  intros Hu. unfold inferArrayType.
  by rewrite (inferArrayType_loop_uniform t value Hu).
Qed.

Lemma inferArrayType_not_uniform value :
  (forall t, ~ uniform t value) ->
  inferArrayType value = array ValueType (Some (length value)).
Proof.
  intros Hnu. unfold inferArrayType.
  by rewrite inferArrayType_loop_not_uniform.
Qed.

Lemma uniform_Permutation t value value' :
  value ≡ₚ value' -> uniform t value -> uniform t value'.
Proof.
  intros Hp [Hne HF]. split.
  - intros ->. apply Permutation_nil_r in Hp. done.
  - by rewrite <- Hp.
Qed.

(** X1.  The inferred type does not depend on the order of the items:
    although the loop stops at the first item that breaks uniformity, two
    arrays with the same items in different orders get the same type. *)
Theorem inferArrayType_Permutation (value value' : list Raw) :
  value ≡ₚ value' -> inferArrayType value = inferArrayType value'.
Proof.
  intros Hp.
  destruct (uniform_or_not value) as [[t Hu]|Hnu].
  - rewrite (inferArrayType_uniform t value Hu).
    rewrite (inferArrayType_uniform t value'
               (uniform_Permutation t value value' Hp Hu)).
    by rewrite Hp.
  - rewrite (inferArrayType_not_uniform value Hnu).
    rewrite (inferArrayType_not_uniform value').
    + by rewrite Hp.
    + intros t Hu. apply (Hnu t).
      by apply (uniform_Permutation t value' value).
Qed.

Lemma inferArrayType_Permutation_witness :
  inferArrayType [RNumber 1; RString "a"; RNumber 2]
  = inferArrayType [RString "a"; RNumber 2; RNumber 1].
Proof.
  apply inferArrayType_Permutation.
  apply (Permutation_cons_append [RString "a"; RNumber 2] (RNumber 1)).
Defined.

(** X2.  The item type of an inferred array type is always one of [String],
    [Number], [Boolean] and [Value]: an array of arrays, of objects or of
    nulls is an array of [Value] items, never an array of arrays. *)
Theorem inferArrayType_item_type (value : list Raw) :
  exists t,
    inferArrayType value = array t (Some (length value)) /\
    (t = StringType \/ t = NumberType \/ t = BooleanType \/ t = ValueType).
Proof.
  destruct (uniform_or_not value) as [[t Hu]|Hnu].
  - exists t. split; [by apply inferArrayType_uniform|].
    destruct Hu as [Hne HF]. destruct value as [|item rest]; [done|].
    inversion HF as [|? ? Hi _]; subst. revert Hi. unfold primitiveTypes.
    repeat case_match; intros [= <-]; auto.
  - exists ValueType. split; [by apply inferArrayType_not_uniform | auto].
Qed.

(** ** Keys and paths *)

Lemma string_app_assoc (a b c : string) :
  (a +:+ b) +:+ c = a +:+ (b +:+ c).
Proof.
  induction a as [|x a IH]; [done|].
  change (String x ((a +:+ b) +:+ c) = String x (a +:+ (b +:+ c))).
  by rewrite IH.
Qed.

Lemma join_dot_snoc path i :
  join_dot (path ++ [i])
  = match path with
    | [] => pretty i
    | _ :: _ => join_dot path +:+ "." +:+ pretty i
    end.
Proof.
  induction path as [|a [|b rest] IH]; [done|done|].
  change (join_dot ((a :: b :: rest) ++ [i]))
    with (pretty a +:+ "." +:+ join_dot ((b :: rest) ++ [i])).
  rewrite IH.
  change (join_dot (a :: b :: rest))
    with (pretty a +:+ "." +:+ join_dot (b :: rest)).
  by rewrite !string_app_assoc.
Qed.

(** X3.  [concat] derives the context of a child: the path grows by the
    index, the registry is kept, and the key of the child is the key of the
    parent followed by a dot and the index, or the index alone under the
    root; the name of the enclosing expression is added to the ancestors
    unless it is absent or empty. *)
Theorem concat_extends_key
    (context : ParsingContext) (index : nat) (name : option string) :
  ParsingContext_wf context ->
  ParsingContext_wf (concat context index name) /\
  path (concat context index name) = path context ++ [index] /\
  definitions (concat context index name) = definitions context /\
  key (concat context index name)
  = (match path context with
     | [] => pretty index
     | _ :: _ => key context +:+ "." +:+ pretty index
     end) /\
  ancestors (concat context index name)
  = (match name with
     | Some n => if decide (n = "") then ancestors context
                 else ancestors context ++ [n]
     | None => ancestors context
     end).
Proof.
  intros Hwf. repeat split.
  - unfold concat, ParsingContext_new. cbn [key path].
    rewrite join_dot_snoc, Hwf. done.
  - unfold concat, ParsingContext_new. cbn [ancestors].
    destruct name as [n|]; [|done].
    destruct (decide (n = "")) as [->|Hn]; [done|].
    by rewrite (proj2 (String.eqb_neq _ _) Hn).
Qed.

Lemma concat_extends_key_witness :
  key (concat (ParsingContext_new ∅ [2; 1] ["match"]) 3 (Some "get")) = "2.1.3".
Proof.
  destruct (concat_extends_key (ParsingContext_new ∅ [2; 1] ["match"]) 3
              (Some "get")) as (_ & _ & _ & Hkey & _).
  - reflexivity.
  - exact Hkey.
Defined.

Lemma pretty_N_char_not_dot x : Ascii.eqb (pretty_N_char x) "."%char = false.
Proof. unfold pretty_N_char. by repeat case_match. Qed.

Lemma pretty_N_go_no_dot x :
  forall s, has_dot s = false -> has_dot (pretty_N_go x s) = false.
Proof.
  induction (N.lt_wf_0 x) as [x _ IH]; intros s Hs.
  assert (x = 0 \/ 0 < x)%N as [->|Hx] by lia.
  - by rewrite pretty_N_go_0.
  - rewrite pretty_N_go_step by done. apply IH.
    + by apply N.div_lt.
    + cbn [has_dot]. by rewrite pretty_N_char_not_dot.
Qed.

Lemma pretty_N_go_nonempty x :
  forall s, s <> "" -> pretty_N_go x s <> "".
Proof.
  induction (N.lt_wf_0 x) as [x _ IH]; intros s Hs.
  assert (x = 0 \/ 0 < x)%N as [->|Hx] by lia.
  - by rewrite pretty_N_go_0.
  - rewrite pretty_N_go_step by done. apply IH; [by apply N.div_lt|done].
Qed.

Lemma pretty_nat_no_dot (n : nat) : has_dot (pretty n) = false.
Proof.
  unfold pretty, pretty_nat, pretty, pretty_N.
  case_decide; [done|]. by apply pretty_N_go_no_dot.
Qed.

Lemma pretty_nat_nonempty (n : nat) : pretty n <> "".
Proof.
  unfold pretty, pretty_nat, pretty, pretty_N.
  case_decide as H; [done|].
  rewrite pretty_N_go_step by lia. by apply pretty_N_go_nonempty.
Qed.

Lemma has_dot_app a b : has_dot (a +:+ "." +:+ b) = true.
Proof.
  induction a as [|c a IH]; [done|].
  change (has_dot (String c (a +:+ "." +:+ b)) = true).
  cbn [has_dot]. by destruct (Ascii.eqb c ".").
Qed.

(** A string is cut in one way only at its first dot. *)
Lemma dot_split a a' b b' :
  has_dot a = false -> has_dot a' = false ->
  a +:+ "." +:+ b = a' +:+ "." +:+ b' -> a = a' /\ b = b'.
Proof.
  revert a'. induction a as [|c a IH]; intros [|c' a'] Ha Ha' H.
  - change (String "." b = String "." b') in H. by injection H as ->.
  - change (String "." b = String c' (a' +:+ "." +:+ b')) in H.
    injection H as <- _. by simpl in Ha'.
  - change (String c (a +:+ "." +:+ b) = String "." b') in H.
    injection H as -> _. by simpl in Ha.
  - change (String c (a +:+ "." +:+ b) = String c' (a' +:+ "." +:+ b')) in H.
    injection H as -> H. cbn [has_dot] in Ha, Ha'.
    destruct (Ascii.eqb c' "."); [done|].
    destruct (IH a' Ha Ha' H) as [-> ->]. done.
Qed.

Lemma join_dot_nonempty i rest : join_dot (i :: rest) <> "".
Proof.
  destruct rest as [|j rest]; [apply pretty_nat_nonempty|].
  change (pretty i +:+ "." +:+ join_dot (j :: rest) <> "").
  pose proof (pretty_nat_nonempty i). by destruct (pretty i).
Qed.

(** X4.  Keys identify positions: two paths with the same key are the
    same path. *)
Theorem join_dot_inj (p q : list nat) : join_dot p = join_dot q -> p = q.
Proof.
  revert q. induction p as [|i p IH]; intros [|i' q] H; [done| | |].
  - symmetry in H. by apply join_dot_nonempty in H.
  - by apply join_dot_nonempty in H.
  - destruct p as [|j p], q as [|j' q].
    + change (pretty i = pretty i') in H.
      apply (inj (pretty : nat -> string)) in H. by subst.
    + exfalso. pose proof (pretty_nat_no_dot i) as Hi.
      change (pretty i = pretty i' +:+ "." +:+ join_dot (j' :: q)) in H.
      rewrite H, has_dot_app in Hi. done.
    + exfalso. pose proof (pretty_nat_no_dot i') as Hi.
      change (pretty i +:+ "." +:+ join_dot (j :: p) = pretty i') in H.
      rewrite <- H, has_dot_app in Hi. done.
    + change (pretty i +:+ "." +:+ join_dot (j :: p)
              = pretty i' +:+ "." +:+ join_dot (j' :: q)) in H.
      apply dot_split in H as [Hi Hrest]; try apply pretty_nat_no_dot.
      apply (inj (pretty : nat -> string)) in Hi. subst. f_equal.
      by apply IH.
Qed.

Lemma join_dot_inj_witness : [1; 12] = [1; 12].
Proof. apply (join_dot_inj [1; 12] [1; 12]). reflexivity. Defined.

Lemma parseExpression_key fuel expr context node :
  parseExpression fuel expr context = Ok node ->
  Expression_key node = key context.
Proof.
  destruct fuel as [|fuel]; [done|]. simpl. unfold parseExpression_body.
  destruct expr as [| |s|b|n|r g b a|items|props]; try done;
    try (by intros [= <-]).
  destruct items as [|op args]; [done|].
  destruct op as [| |name| | | | |]; try done.
  destruct (String.eqb name "literal").
  - unfold LiteralExpression_parse. destruct args as [|a [|]]; try done.
    destruct (isValue a); [|done]. by intros [= <-].
  - destruct (definitions context !! name) as [Expr|]; [|done].
    unfold ExprClass_parse, MatchExpression_parse.
    destruct (parse_kind Expr).
    + intros (parsed & _ & ->)%LambdaExpression_parse_ok. done.
    + destruct (length args <? 2)%nat; [done|].
      destruct (MatchExpression_parse_loop _ _ _ _); cbn [bind]; try done.
      intros (parsed & _ & ->)%LambdaExpression_parse_ok. done.
Qed.

Lemma parsed_from_keys fuel op context :
  forall n args parsed,
    parsed_from (parseExpression fuel) op context n args parsed ->
    forall i child,
      parsed !! i = Some child ->
      Expression_key child = join_dot (path context ++ [1 + (n + i)]).
Proof.
  induction 1 as [|n arg rest e es He _ IH]; intros i child Hi; [done|].
  destruct i as [|i]; simpl in Hi.
  - injection Hi as <-. apply parseExpression_key in He. rewrite He.
    by rewrite Nat.add_0_r.
  - rewrite (IH i child Hi). do 3 f_equal. lia.
Qed.

Lemma normalized_middle_length rest :
  forall i, length (normalized_middle i rest) = length rest - 1.
Proof.
  induction rest as [|x [|y rest] IH]; intros i; [done|done|].
  rewrite normalized_middle_cons. cbn [length]. rewrite IH. simpl. lia.
Qed.

(** X5.  A parsed node is keyed by the context it was parsed at.  A parsed
    operator application holds one child per raw argument, its class is
    the registry entry of its name, and its [i]-th child is keyed by the
    path of the application followed by [i + 1]. *)
Theorem parsed_node_keys
    (fuel : nat) (expr : Raw) (context : ParsingContext)
    (node : Expression) :
  parseExpression fuel expr context = Ok node ->
  Expression_key node = key context /\
  forall cls k type children,
    node = LambdaExpression cls k type children ->
    (exists name args,
       expr = RArray (RString name :: args) /\
       definitions context !! name = Some cls /\
       length children = length args) /\
    (forall i child,
       children !! i = Some child ->
       Expression_key child = join_dot (path context ++ [1 + i])).
Proof.
  intros H. split; [by apply (parseExpression_key fuel expr)|].
  intros cls k type children ->.
  destruct fuel as [|fuel]; [done|]. simpl in H.
  unfold parseExpression_body in H.
  destruct expr as [| |s|b|n|r g b a|items|props]; try done.
  destruct items as [|op args]; [done|].
  destruct op as [| |name| | | | |]; try done.
  destruct (String.eqb name "literal").
  { unfold LiteralExpression_parse in H. destruct args as [|a [|]]; try done.
    by destruct (isValue a). }
  destruct (definitions context !! name) as [Expr|] eqn:Hdef; [|done].
  unfold ExprClass_parse, MatchExpression_parse in H.
  destruct (parse_kind Expr).
  - apply LambdaExpression_parse_ok in H as (parsed & Hp & [= -> -> -> ->]).
    split.
    + exists name, args. repeat split; try done.
      by apply parsed_from_length in Hp.
    + intros i child Hi. by apply (parsed_from_keys _ _ _ _ _ _ Hp).
  - destruct (length args <? 2)%nat eqn:Hlen; [done|].
    apply Nat.ltb_ge in Hlen.
    destruct (MatchExpression_parse_loop _ _ _ _) as [out| |] eqn:Hloop;
      cbn [bind] in H; try done.
    apply MatchExpression_parse_loop_ok in Hloop as ->.
    apply LambdaExpression_parse_ok in H as (parsed & Hp & [= -> -> -> ->]).
    split.
    + exists name, args. repeat split; try done.
      apply parsed_from_length in Hp. rewrite Hp.
      rewrite !length_app, normalized_middle_length, length_drop.
      simpl. lia.
    + intros i child Hi. by apply (parsed_from_keys _ _ _ _ _ _ Hp).
Qed.

Lemma parsed_node_keys_witness :
  Expression_key example_match_node = "" /\
  forall i child,
    [LambdaExpression get_class "1" (getType get_class)
       [LiteralExpression "1.1" StringType (RString "x")];
     LiteralExpression "2" (array NumberType (Some 1)) (RArray [RNumber 1]);
     LiteralExpression "3" StringType (RString "a");
     LiteralExpression "4" StringType (RString "b")] !! i = Some child ->
    Expression_key child = join_dot ([] ++ [1 + i]).
Proof.
  destruct (parsed_node_keys 3 example_match example_context
              example_match_node) as [Hkey Hchildren].
  - by vm_compute.
  - split; [exact Hkey|].
    exact (proj2 (Hchildren _ _ _ _ eq_refl)).
Defined.

(** ** Where errors are located *)

Lemma join_dot_dotted path tail :
  path <> [] -> join_dot (path ++ tail) = join_dot path +:+ dotted tail.
Proof.
  revert path. induction tail as [|n tail IH]; intros path Hpath.
  - by rewrite app_nil_r, append_empty_r.
  - rewrite (cons_middle n path tail), app_assoc.
    rewrite IH by (by destruct path).
    rewrite join_dot_snoc. destruct path as [|a path]; [done|].
    cbn [dotted foldr]. by rewrite !string_app_assoc.
Qed.

Lemma located_at context tail :
  ParsingContext_wf context ->
  length tail <= 2 ->
  located_below (path context) (key context +:+ dotted tail).
Proof.
  intros Hwf Hlen. exists [], tail. rewrite app_nil_r, Hwf.
  repeat split; [done|]. intros Hpath. cbn [app].
  by rewrite join_dot_dotted.
Qed.

Lemma located_at_key context :
  ParsingContext_wf context ->
  located_below (path context) (key context).
Proof.
  intros Hwf. rewrite <- (append_empty_r (key context)).
  apply (located_at context []); [done | simpl; lia].
Qed.

Lemma located_below_concat context index name k :
  located_below (path (concat context index name)) k ->
  located_below (path context) k.
Proof.
  intros (below & tail & Hlen & Hk & Hpath).
  cbn [concat ParsingContext_new path] in Hk, Hpath.
  exists (index :: below), tail. split; [done|].
  rewrite (cons_middle index (path context) below), app_assoc.
  split; [done|]. intros _.
  rewrite Hpath by (by destruct (path context)).
  by rewrite <- !app_assoc.
Qed.

Lemma check_inputGroup_throw_key context i inputGroup :
  forall j err,
    MatchExpression_check_inputGroup context i j inputGroup = Throw err ->
    exists j', ParsingError_key err = key context +:+ dotted [i + 1; j'].
Proof.
  induction inputGroup as [|v rest IH]; intros j err; simpl; [done|].
  destruct (String.eqb (typeof v) "object"); [|apply IH].
  intros [= <-]. exists j. cbn [ParsingError_key dotted foldr].
  by rewrite append_empty_r.
Qed.

Lemma MatchExpression_parse_loop_throw_key context rest :
  forall i acc err,
    MatchExpression_parse_loop context i rest acc = Throw err ->
    exists tail,
      length tail <= 2 /\
      ParsingError_key err = key context +:+ dotted tail.
Proof.
  induction rest as [|arg rest IH]; intros i acc err; [done|].
  destruct rest as [|x rest]; [done|].
  destruct (decide (i mod 2 = 1)) as [Hi|Hi].
  - rewrite MatchExpression_parse_loop_odd by done.
    destruct (label_check context i arg) as [[]| |] eqn:Hc; cbn [bind];
      [apply IH| |done].
    intros [= <-]. unfold label_check in Hc.
    destruct (length (inputGroup_of arg) =? 0)%nat.
    + injection Hc as <-. exists [i + 1]. split; [simpl; lia|].
      cbn [ParsingError_key dotted foldr]. by rewrite append_empty_r.
    + apply check_inputGroup_throw_key in Hc as [j' Hj'].
      exists [i + 1; j']. split; [simpl; lia | done].
  - rewrite MatchExpression_parse_loop_even by done. apply IH.
Qed.

(** X6.  An error raised while parsing at a context built by the
    constructor is located in the subtree of that context: its key is the
    key of a path that extends the path of the context, followed by at most
    two more indices (the position of an operator name or of a label), and
    unless the context is the root it is itself the key of a path that
    extends the path of the context. *)
Theorem error_key_extends_context
    (fuel : nat) (expr : Raw) (context : ParsingContext)
    (err : ParsingError) :
  ParsingContext_wf context ->
  parseExpression fuel expr context = Throw err ->
  exists below tail,
    length tail <= 2 /\
    ParsingError_key err = join_dot (path context ++ below) +:+ dotted tail /\
    (path context <> [] ->
     ParsingError_key err = join_dot (path context ++ below ++ tail)).
Proof.
  change (ParsingContext_wf context ->
          parseExpression fuel expr context = Throw err ->
          located_below (path context) (ParsingError_key err)).
  revert expr context err.
  induction fuel as [|fuel IH]; intros expr context err Hwf; [done|].
  pose proof (located_at_key context Hwf) as Hkey.
  assert (Hzero : located_below (path context) (key context +:+ ".0")).
  { pose proof (located_at context [0] Hwf ltac:(simpl; lia)) as H.
    cbn [dotted foldr] in H. by rewrite append_empty_r in H. }
  assert (Hdefault : forall cls args,
            LambdaExpression_parse (parseExpression fuel) cls args context
            = Throw err ->
            located_below (path context) (ParsingError_key err)).
  { intros cls args H. unfold LambdaExpression_parse in H.
    destruct (LambdaExpression_parse_loop _ _ _ _ _) as [out| |] eqn:Hl;
      cbn [bind] in H; try done.
    injection H as ->.
    apply LambdaExpression_parse_loop_throw in Hl as (i & arg & _ & Harg).
    apply IH in Harg; [|by apply concat_extends_key].
    by apply located_below_concat in Harg. }
  simpl. unfold parseExpression_body.
  destruct expr as [| |s|b|n|r g b a|items|props]; try done;
    try (by intros [= <-]).
  destruct items as [|op args]; [by intros [= <-]|].
  destruct op as [| |name| | | | |]; try (by intros [= <-]).
  destruct (String.eqb name "literal").
  - unfold LiteralExpression_parse. destruct args as [|a [|]];
      try (by intros [= <-]).
    destruct (isValue a); [done|]. by intros [= <-].
  - destruct (definitions context !! name) as [Expr|];
      [|by intros [= <-]].
    unfold ExprClass_parse, MatchExpression_parse.
    destruct (parse_kind Expr); [apply Hdefault|].
    destruct (length args <? 2)%nat; [by intros [= <-]|].
    destruct (MatchExpression_parse_loop _ _ _ _) as [out| |] eqn:Hloop;
      cbn [bind]; [apply Hdefault| |done].
    intros [= <-].
    apply MatchExpression_parse_loop_throw_key in Hloop as (tail & Hlen & ->).
    by apply located_at.
Qed.

Lemma error_key_extends_context_witness :
  exists below tail,
    length tail <= 2 /\
    "3.1.2.0" = join_dot ([3] ++ below) +:+ dotted tail /\
    ([3] <> [] -> "3.1.2.0" = join_dot ([3] ++ below ++ tail)).
Proof.
  apply (error_key_extends_context 2
           (RArray [RString "get";
                    RArray [RString "match"; RString "x"; RArray [RNull];
                            RString "a"; RString "b"]])
           (ParsingContext_new example_definitions [3] [])
           (mkParsingError "3.1.2.0" match_inputs_message)).
  - reflexivity.
  - by vm_compute.
Defined.

(** ** The first failing argument *)

Lemma LambdaExpression_parse_loop_first_throw self op context args :
  forall parsedArgs err,
    LambdaExpression_parse_loop self op context parsedArgs args = Throw err <->
    exists i arg,
      args !! i = Some arg /\
      self arg (concat context (1 + (length parsedArgs + i)) (Some op))
        = Throw err /\
      forall j a, j < i -> args !! j = Some a ->
        exists e,
          self a (concat context (1 + (length parsedArgs + j)) (Some op))
          = Ok e.
Proof.
  induction args as [|arg rest IH]; intros acc err.
  - split; [done|]. by intros (i & a & Hi & _).
  - cbn [LambdaExpression_parse_loop].
    destruct (self arg (concat context (1 + length acc) (Some op)))
      as [e| |] eqn:He; cbn [bind].
    + rewrite IH. rewrite length_app. simpl length. split.
      * intros (i & a & Hi & Ha & Hbefore). exists (S i), a.
        split; [done|]. split.
        { by replace (length acc + S i) with (length acc + 1 + i) by lia. }
        intros j a' Hlt Hj. destruct j as [|j].
        { injection Hj as <-. exists e. by rewrite Nat.add_0_r. }
        destruct (Hbefore j a') as [e' He']; [lia|done|].
        exists e'.
        by replace (length acc + S j) with (length acc + 1 + j) by lia.
      * intros (i & a & Hi & Ha & Hbefore). destruct i as [|i].
        { injection Hi as <-. rewrite Nat.add_0_r in Ha. congruence. }
        exists i, a. split; [done|]. split.
        { by replace (length acc + 1 + i) with (length acc + S i) by lia. }
        intros j a' Hlt Hj. destruct (Hbefore (S j) a') as [e' He'];
          [lia|done|].
        exists e'.
        by replace (length acc + 1 + j) with (length acc + S j) by lia.
    + split.
      * intros [= <-]. exists 0, arg. split; [done|]. split.
        { by rewrite Nat.add_0_r. }
        intros j a' Hlt. lia.
      * intros (i & a & Hi & Ha & Hbefore). destruct i as [|i].
        { injection Hi as <-. rewrite Nat.add_0_r in Ha. congruence. }
        destruct (Hbefore 0 arg) as [e' He']; [lia|done|].
        rewrite Nat.add_0_r in He'. congruence.
    + split; [done|].
      intros (i & a & Hi & Ha & Hbefore). destruct i as [|i].
      { injection Hi as <-. rewrite Nat.add_0_r in Ha. congruence. }
      destruct (Hbefore 0 arg) as [e' He']; [lia|done|].
      rewrite Nat.add_0_r in He'. congruence.
Qed.

(** X7.  The default parse stops at the first argument that fails: it
    reports an error exactly when some argument fails with that error
    after all the arguments before it have parsed. *)
Theorem default_parse_first_error
    (self : Raw -> ParsingContext -> Outcome Expression)
    (this : ExprClass) (args : list Raw) (context : ParsingContext)
    (err : ParsingError) :
  LambdaExpression_parse self this args context = Throw err <->
  exists i arg,
    args !! i = Some arg /\
    self arg (concat context (1 + i) (Some (getName this))) = Throw err /\
    forall j a, j < i -> args !! j = Some a ->
      exists e, self a (concat context (1 + j) (Some (getName this))) = Ok e.
Proof.
  rewrite <- (LambdaExpression_parse_loop_first_throw self (getName this)
                context args [] err).
  unfold LambdaExpression_parse.
  destruct (LambdaExpression_parse_loop _ _ _ _ _); cbn [bind];
    split; intros; congruence.
Qed.

Lemma default_parse_first_error_witness :
  LambdaExpression_parse (parseExpression 1) get_class
    [RString "x"; RUndefined; RArray []] example_context
  = throw "2" "'undefined' value invalid. Use null instead.".
Proof.
  apply (proj2 (default_parse_first_error (parseExpression 1) get_class
                  [RString "x"; RUndefined; RArray []] example_context _)).
  exists 1, RUndefined. split; [reflexivity|]. split; [reflexivity|].
  intros j a Hlt Hj. destruct j as [|j]; [|lia].
  injection Hj as <-. by eexists.
Defined.

(** ** Parsing and serializing, again *)

Lemma plain_application defs name args :
  plain defs (RArray (RString name :: args)) ->
  name <> "literal" /\
  (forall cls, defs !! name = Some cls -> parse_kind cls = DefaultParse) /\
  Forall (plain defs) args.
Proof.
  cbn [plain]. intros (Hn & Hk & Hall). repeat split; try done.
  induction args as [|a rest IH]; constructor; [apply Hall|apply IH, Hall].
Qed.

Lemma parsed_from_serialize type_name fuel op context :
  (forall arg c e,
     definitions c = definitions context ->
     plain (definitions context) arg ->
     parseExpression fuel arg c = Ok e ->
     serialize type_name false e = arg) ->
  forall n args parsed,
    Forall (plain (definitions context)) args ->
    parsed_from (parseExpression fuel) op context n args parsed ->
    List.map (serialize type_name false) parsed = args.
Proof.
  intros IH n args parsed HF Hp. revert HF.
  induction Hp as [|n arg rest e es He _ IHp]; intros HF; [done|].
  inversion HF as [|? ? Harg Hrest]; subst. simpl.
  rewrite IHp by done. f_equal. by apply (IH arg _ e) in He.
Qed.

(** X8.  Under a registry that files each operator under its own name,
    serializing without type annotations the tree parsed from an accepted
    expression gives back the expression itself, whenever the expression
    contains no ["literal"] application and no [match] application. *)
Theorem serialize_after_parse_exact
    (type_name : Ty -> string) (fuel : nat) (expr : Raw)
    (context : ParsingContext) (node : Expression) :
  registry_consistent (definitions context) ->
  plain (definitions context) expr ->
  parseExpression fuel expr context = Ok node ->
  serialize type_name false node = expr.
Proof.
  intros Hreg. revert expr context node Hreg.
  induction fuel as [|fuel IH]; intros expr context node Hreg Hplain; [done|].
  simpl. unfold parseExpression_body.
  destruct expr as [| |s|b|n|r g b a|items|props]; try done;
    try (by intros [= <-]).
  destruct items as [|op args]; [done|].
  destruct op as [| |name| | | | |]; try done.
  apply plain_application in Hplain as (Hname & Hkind & Hargs).
  rewrite (proj2 (String.eqb_neq _ _) Hname).
  destruct (definitions context !! name) as [Expr|] eqn:Hdef; [|done].
  unfold ExprClass_parse. rewrite (Hkind Expr eq_refl).
  intros (parsed & Hp & ->)%LambdaExpression_parse_ok.
  cbn [serialize]. rewrite append_empty_r, (Hreg _ _ Hdef). do 2 f_equal.
  eapply parsed_from_serialize; [|exact Hargs|exact Hp].
  intros arg c e Hc Harg He. apply (IH arg c e); [by rewrite Hc| |done].
  by rewrite Hc.
Qed.

Lemma serialize_after_parse_exact_witness :
  serialize (fun _ => "") false
    (LambdaExpression get_class "" (getType get_class)
       [LiteralExpression "1" StringType (RString "x"); 
        LiteralExpression "2" NullType RNull])
  = RArray [RString "get"; RString "x"; RNull].
Proof.
  apply (serialize_after_parse_exact (fun _ => "") 2
           (RArray [RString "get"; RString "x"; RNull]) example_context).
  - exact example_definitions_consistent.
  - cbn [plain]. split; [discriminate|]. split; [|done].
    intros cls H. unfold example_context, ParsingContext_new in H.
    cbn [definitions] in H. unfold example_definitions in H.
    rewrite lookup_insert_eq in H. by injection H as <-.
  - by vm_compute.
Defined.

(** X9.  The serialization of a parsed [match] application with at least
    one label argument is not accepted back: its first label comes out
    wrapped as [["literal", labels]], whose second element is an array,
    so parsing it again fails with the label error located at
    [<key>.2.1]. *)
Theorem serialized_match_is_rejected
    (type_name : Ty -> string) (fuel fuel' : nat) (args : list Raw)
    (context context' : ParsingContext) (node : Expression) :
  definitions context !! "match" = Some MatchExpression ->
  definitions context' !! "match" = Some MatchExpression ->
  3 <= length args ->
  parseExpression fuel (RArray (RString "match" :: args)) context = Ok node ->
  parseExpression (S fuel') (serialize type_name false node) context'
  = throw (key context' +:+ ".2.1") match_inputs_message.
Proof.
  intros Hm Hm' Hlen H.
  destruct fuel as [|fuel]; [done|].
  rewrite parseExpression_match in H by done.
  unfold MatchExpression_parse in H.
  destruct (length args <? 2)%nat; [done|].
  destruct (MatchExpression_parse_loop _ _ _ _) as [out| |] eqn:Hloop;
    cbn [bind] in H; try done.
  apply MatchExpression_parse_loop_ok in Hloop as ->.
  apply LambdaExpression_parse_ok in H as (parsed & Hp & ->).
  destruct args as [|a0 [|a1 [|a2 rest]]]; simpl in Hlen; try lia.
  change (drop 1 (a0 :: a1 :: a2 :: rest)) with (a1 :: a2 :: rest) in Hp.
  rewrite normalized_middle_cons in Hp.
  cbn [lookup list_lookup default id app Nat.modulo Nat.divmod Nat.eqb fst snd
       Nat.sub] in Hp.
  inversion Hp as [|? ? ? e0 es0 _ Hp0]; subst.
  inversion Hp0 as [|? ? ? e1 es1 He1 Hp1]; subst.
  assert (exists e2 es2, es1 = e2 :: es2) as (e2 & es2 & ->).
  { apply parsed_from_length in Hp1. rewrite length_app in Hp1.
    destruct es1 as [|e2 es2]; [simpl in Hp1; lia | by eauto]. }
  assert (serialize type_name false e1 = wrap_labels a1) as Hs1.
  { destruct fuel as [|fuel]; [done|].
    simpl in He1. unfold LiteralExpression_parse in He1.
    match type of He1 with context [negb ?b] => destruct b end; [|done].
    by injection He1 as <-. }
  cbn [serialize List.map]. rewrite Hs1, append_empty_r.
  change (getName MatchExpression) with "match".
  rewrite parseExpression_match by done.
  apply (MatchExpression_parse_first_error _ _ _ context' 1 (wrap_labels a1));
    [done | simpl; lia | done | done |].
  intros j a Hlt Hodd. destruct j as [|j]; [done|lia].
Qed.

Lemma serialized_match_is_rejected_witness :
  parseExpression 1 (serialize (fun _ => "") false example_match_node)
    example_context
  = throw ".2.1" match_inputs_message.
Proof.
  apply (serialized_match_is_rejected (fun _ => "") 3 0
           [RArray [RString "get"; RString "x"]; RArray [RNumber 1];
            RString "a"; RString "b"]
           example_context example_context example_match_node).
  - reflexivity.
  - reflexivity.
  - simpl. lia.
  - by vm_compute.
Defined.

(** ** The dispatch table, exactly *)

(** Either no branch lists the key, or there is a last branch that does. *)
Lemma last_listing (k : string) (inputs : list Expression) :
  (forall e, e ∈ inputs -> k ∉ label_keys e) \/
  (exists i e,
     inputs !! i = Some e /\ k ∈ label_keys e /\
     forall j e', i < j -> inputs !! j = Some e' -> k ∉ label_keys e').
Proof.
  induction inputs as [|e0 rest [IH|(i & e & Hi & Hin & Hlater)]].
  - left. intros e He. by apply elem_of_nil in He.
  - destruct (decide (k ∈ label_keys e0)) as [Hk|Hk].
    + right. exists 0, e0. repeat split; try done.
      intros j e' Hlt Hj. destruct j as [|j]; [lia|]. simpl in Hj.
      apply IH. apply list_elem_of_lookup. eauto.
    + left. intros e [->|He]%elem_of_cons; [done | by apply IH].
  - right. exists (S i), e. repeat split; try done.
    intros j e' Hlt Hj. destruct j as [|j]; [lia|]. simpl in Hj.
    apply (Hlater j e'); [lia|done].
Qed.

(** X10.  The table of a compiled [match] holds exactly the keys of the
    labels: a key has no entry if and only if no branch lists it, and it
    is mapped to [i] if and only if [i] is the last branch that lists
    it. *)
Theorem inputMap_exact {Env : Type}
    (args : list (CompiledExpression Env))
    (inputs : list Expression) (outs : list (option (JS Env)))
    (m : MatchJS Env) (k : string) :
  MatchExpression_branches args = Compiled (inputs, outs) ->
  MatchExpression_compile args = Compiled m ->
  (inputMap m !! k = None <-> forall e, e ∈ inputs -> k ∉ label_keys e) /\
  (forall i,
     inputMap m !! k = Some i <->
     exists e,
       inputs !! i = Some e /\ k ∈ label_keys e /\
       forall j e', i < j -> inputs !! j = Some e' -> k ∉ label_keys e').
Proof.
  intros Hb Hc.
  destruct (MatchExpression_compile_inv args m Hc)
    as (inputs0 & Hb0 & Hm & _ & _ & _).
  rewrite Hb in Hb0. injection Hb0 as <- _.
  assert (Hmiss : (forall e, e ∈ inputs -> k ∉ label_keys e) ->
                  inputMap m !! k = None).
  { intros H.
    by rewrite (MatchExpression_inputMap_loop_miss _ _ _ _ k Hm H). }
  assert (Hhit : forall i e,
            inputs !! i = Some e -> k ∈ label_keys e ->
            (forall j e', i < j -> inputs !! j = Some e' ->
                          k ∉ label_keys e') ->
            inputMap m !! k = Some i).
  { intros i e Hi Hin Hlater.
    by rewrite (MatchExpression_inputMap_loop_hit _ _ _ _ k i e Hm Hi Hin
                  Hlater). }
  split.
  - split; [|exact Hmiss]. intros Hnone.
    destruct (last_listing k inputs) as [H|(i & e & Hi & Hin & Hlater)];
      [done|].
    rewrite (Hhit i e Hi Hin Hlater) in Hnone. done.
  - intros i. split.
    + intros Hsome.
      destruct (last_listing k inputs) as [H|(i' & e & Hi & Hin & Hlater)].
      * rewrite (Hmiss H) in Hsome. done.
      * rewrite (Hhit i' e Hi Hin Hlater) in Hsome. injection Hsome as <-.
        eauto.
    + intros (e & Hi & Hin & Hlater). by apply (Hhit i e).
Qed.

Lemma inputMap_exact_witness :
  inputMap tagged_labels_js !! "number-5" = None /\
  inputMap tagged_labels_js !! "string-0" = Some 1.
Proof.
  split.
  - apply (proj1 (inputMap_exact tagged_labels tagged_labels_inputs
                    tagged_labels_outputs tagged_labels_js "number-5"
                    ltac:(by vm_compute) ltac:(by vm_compute))).
    intros e He. unfold tagged_labels_inputs in He.
    apply elem_of_cons in He as [->|He];
      [|apply elem_of_cons in He as [->|He]].
    + vm_compute. intros H%elem_of_cons. destruct H as [H|H]; [done|].
      by apply elem_of_nil in H.
    + vm_compute. intros H%elem_of_cons. destruct H as [H|H]; [done|].
      by apply elem_of_nil in H.
    + by apply elem_of_nil in He.
  - apply (proj2 (inputMap_exact tagged_labels tagged_labels_inputs
                    tagged_labels_outputs tagged_labels_js "string-0"
                    ltac:(by vm_compute) ltac:(by vm_compute)) 1).
    exists (expression (compiled_literal "4" (RArray [RString "0"]))).
    split; [reflexivity|]. split.
    + vm_compute. apply elem_of_cons. by left.
    + intros j e' Hlt Hj. destruct j as [|[|j]]; [lia|lia|done].
Defined.

(** ** A [match] on well-formed arguments *)

Lemma MatchExpression_inputMap_loop_succeeds rest :
  Forall (fun e => exists values, Expression_value e = RArray values) rest ->
  forall i (m : gmap string nat),
    exists m', MatchExpression_inputMap_loop i rest m = Compiled m'.
Proof.
  induction 1 as [|e rest [values Hv] _ IH]; intros i m; simpl;
    [by eexists|].
  rewrite Hv. apply IH.
Qed.

Lemma compile_key_in_labels v e :
  label_primitive v ->
  Forall label_primitive (labels e) ->
  compile_key v ∈ label_keys e <-> v ∈ labels e.
Proof.
  intros Hv He. unfold label_keys. split.
  - intros (b & Hkey & Hb)%list_elem_of_fmap.
    rewrite (compile_key_inj v b Hv); [done| |done].
    by apply (proj1 (Forall_forall _ _) He).
  - by apply list_elem_of_fmap_2.
Qed.

Lemma thunks_lookup {A : Type} (outs : list (option A)) (thunks : list A)
    (i : nat) (t t' : A) :
  mapM id outs = Some thunks ->
  outs !! i = Some (Some t) ->
  thunks !! i = Some t' ->
  t' = t.
Proof.
  intros ->%mapM_id_Some Ho Ht.
  rewrite list_lookup_fmap, Ht in Ho. by injection Ho as ->.
Qed.

(** X11.  On arguments of the form input, (labels, output) pairs,
    fallback, where the labels are arrays of strings, numbers and
    booleans, [compile] succeeds.  When the text of the input reads as an
    expression and the text of every output and of the fallback reads as
    the body of an arrow function, evaluating with an input that is a
    string, number or boolean runs exactly the thunk made of the output of
    the last pair whose labels contain that value, or of the fallback when
    no pair does, and returns what that thunk returns. *)
Theorem match_on_pairs {Env : Type}
    (input0 : CompiledExpression Env)
    (pairs : list (CompiledExpression Env * CompiledExpression Env))
    (otherwise : CompiledExpression Env) (inp : JS Env) (env : Env)
    (v : Raw) :
  Forall (fun p => exists k t values,
            expression p.1 = LiteralExpression k t (RArray values) /\
            Forall label_primitive values) pairs ->
  as_expression (js input0) = Some inp ->
  Forall (fun p => is_Some (arrow (js p.2))) pairs ->
  is_Some (arrow (js otherwise)) ->
  inp env = Returned v ->
  label_primitive v ->
  exists m,
    MatchExpression_compile
      (input0 :: flat_map (fun p => [p.1; p.2]) pairs ++ [otherwise])
    = Compiled m /\
    (forall i p (thunk : JS Env),
       pairs !! i = Some p ->
       arrow (js p.2) = Some thunk ->
       v ∈ labels (expression p.1) ->
       (forall j p', i < j -> pairs !! j = Some p' ->
                     v ∉ labels (expression p'.1)) ->
       MatchJS_run m env = ([i], thunk env)) /\
    ((forall p, p ∈ pairs -> v ∉ labels (expression p.1)) ->
     forall thunk : JS Env,
       arrow (js otherwise) = Some thunk ->
       MatchJS_run m env = ([length pairs], thunk env)).
Proof.
  intros Hpairs Hinp Houts Hother Hin Hv.
  set (args := input0 :: flat_map (fun p => [p.1; p.2]) pairs ++ [otherwise]).
  set (inputs := (fun p => expression p.1) <$> pairs).
  set (outs := ((fun p => arrow (js p.2)) <$> pairs) ++ [arrow (js otherwise)]).
  assert (Hb : MatchExpression_branches args = Compiled (inputs, outs)).
  { apply MatchExpression_branches_pairs.
    eapply Forall_impl; [exact Hpairs|].
    intros p (k & t & values & Hp & _). eauto. }
  assert (Hprim : Forall (fun e => Forall label_primitive (labels e)) inputs).
  { apply Forall_fmap. eapply Forall_impl; [exact Hpairs|].
    intros p (k & t & values & Hp & Hvalues). simpl. unfold labels.
    by rewrite Hp. }
  destruct (MatchExpression_inputMap_loop_succeeds inputs) with (i := 0)
    (m := (∅ : gmap string nat)) as [map Hmap].
  { apply Forall_fmap. eapply Forall_impl; [exact Hpairs|].
    intros p (k & t & values & Hp & _). simpl. rewrite Hp. by eexists. }
  assert (exists thunks : list (JS Env), mapM id outs = Some thunks)
    as [thunks Hthunks].
  { apply (mapM_is_Some_2 id). apply Forall_app. split.
    - apply Forall_fmap. eapply Forall_impl; [exact Houts|]. by intros p Hp.
    - by constructor. }
  set (m := mkMatchJS outs map (js input0)).
  assert (Hc : MatchExpression_compile args = Compiled m).
  { unfold MatchExpression_compile. cbn [lookup list_lookup args].
    fold args. rewrite Hb. unfold MatchExpression_inputMap. by rewrite Hmap. }
  exists m. split; [exact Hc|]. split.
  - intros i p thunk Hi Hthunk Hmem Hlater.
    destruct (MatchJS_run_hit args inputs outs m inp thunks env v i
                (expression p.1) Hb Hc Hinp Hthunks Hin)
      as (_ & thunk' & Ht & Hrun).
    + unfold inputs. by rewrite list_lookup_fmap, Hi.
    + rewrite runtime_key_primitive by done.
      apply compile_key_in_labels; [done| |done].
      apply (Forall_lookup_1 _ _ i _ Hprim).
      unfold inputs. by rewrite list_lookup_fmap, Hi.
    + intros j e' Hlt Hj. unfold inputs in Hj.
      rewrite list_lookup_fmap in Hj.
      destruct (pairs !! j) as [p'|] eqn:Hp'; [|done].
      injection Hj as <-. rewrite runtime_key_primitive by done.
      rewrite compile_key_in_labels; [by apply (Hlater j p')|done|].
      apply (Forall_lookup_1 _ _ j _ Hprim).
      unfold inputs. by rewrite list_lookup_fmap, Hp'.
    + assert (thunk' = thunk) as ->; [|exact Hrun].
      apply (thunks_lookup outs thunks i thunk thunk' Hthunks); [|done].
      unfold outs. rewrite lookup_app_l
        by (rewrite length_fmap; by apply lookup_lt_Some in Hi).
      by rewrite list_lookup_fmap, Hi, <- Hthunk.
  - intros Hmiss thunk Hthunk.
    assert (inputMap m !! runtime_key v = None) as Hnone.
    { cbn [inputMap m].
      rewrite (MatchExpression_inputMap_loop_miss _ _ _ _ (runtime_key v)
                 Hmap); [done|].
      intros e He. unfold inputs in He.
      apply list_elem_of_fmap in He as (p & -> & Hp).
      rewrite runtime_key_primitive by done.
      rewrite compile_key_in_labels; [by apply Hmiss|done|].
      apply (proj1 (Forall_forall _ _) Hprim).
      unfold inputs.
      by apply (list_elem_of_fmap_2 (fun q => expression q.1) pairs p). }
    destruct (MatchJS_run_selected args m inp thunks env v Hc Hinp Hthunks Hin)
      as (sel & thunk' & Ht & Hrun & [Hsel|[_ ->]]); [congruence|].
    cbn [outputs m] in *.
    assert (length outs - 1 = length pairs) as Hlen.
    { unfold outs. rewrite length_app, length_fmap. simpl. lia. }
    rewrite Hlen in *.
    assert (thunk' = thunk) as ->; [|exact Hrun].
    apply (thunks_lookup outs thunks (length pairs) thunk thunk' Hthunks);
      [|done].
    unfold outs. rewrite lookup_app_r by (by rewrite length_fmap).
    by rewrite length_fmap, Nat.sub_diag, <- Hthunk.
Qed.

Lemma match_on_pairs_witness :
  exists m,
    MatchExpression_compile tagged_labels = Compiled m /\
    MatchJS_run m (RString "0") = ([1], Returned (RString "str")).
Proof.
  destruct (match_on_pairs compiled_input
              [(compiled_literal "2" (RArray [RNumber 0]),
                compiled_literal "3" (RString "num"));
               (compiled_literal "4" (RArray [RString "0"]),
                compiled_literal "5" (RString "str"))]
              (compiled_literal "6" (RString "other"))
              (fun env => Returned env) (RString "0") (RString "0"))
    as (m & Hc & Hhit & _).
  - repeat constructor; do 3 eexists; (split; [reflexivity|]);
      by repeat constructor.
  - reflexivity.
  - repeat constructor; by eexists.
  - by eexists.
  - reflexivity.
  - exact I.
  - exists m. split; [exact Hc|].
    apply (Hhit 1 (compiled_literal "4" (RArray [RString "0"]),
                   compiled_literal "5" (RString "str"))
             (fun _ => Returned (RString "str"))).
    + reflexivity.
    + reflexivity.
    + apply elem_of_cons. by left.
    + intros j p' Hlt Hj. destruct j as [|[|j]]; [lia|lia|done].
Defined.

(** ** From parsing to compiling *)

Lemma check_inputGroup_Ok context i inputGroup :
  forall j,
    MatchExpression_check_inputGroup context i j inputGroup = Ok tt ->
    Forall (fun v => typeof v <> "object") inputGroup.
Proof.
  induction inputGroup as [|v rest IH]; intros j; simpl; [constructor|].
  destruct (String.eqb (typeof v) "object") eqn:Hv; [done|].
  intros H. constructor; [by apply String.eqb_neq | by apply (IH (S j))].
Qed.

Lemma label_check_Ok context i arg :
  label_check context i arg = Ok tt -> valid_labels arg.
Proof.
  unfold label_check, valid_labels.
  destruct (inputGroup_of arg) as [|v rest]; [done|]. simpl length.
  cbn [Nat.eqb]. intros H. split; [done|].
  by apply check_inputGroup_Ok in H.
Qed.

Lemma MatchExpression_parse_loop_labels_valid context rest :
  forall i acc out,
    MatchExpression_parse_loop context i rest acc = Ok out ->
    labels_valid i rest.
Proof.
  induction rest as [|arg rest IH]; intros i acc out; [done|].
  destruct rest as [|x rest]; [done|].
  destruct (decide (i mod 2 = 1)) as [Hi|Hi].
  - rewrite MatchExpression_parse_loop_odd by done.
    destruct (label_check context i arg) as [[]| |] eqn:Hc; cbn [bind];
      try done.
    intros H. split; [intros _; by apply (label_check_Ok context i)|].
    by apply IH in H.
  - rewrite MatchExpression_parse_loop_even by done.
    intros H. split; [done|]. by apply IH in H.
Qed.

Lemma parsed_from_label_positions fuel op context lastx rest :
  forall i n parsed,
    labels_valid i rest ->
    parsed_from (parseExpression fuel) op context n
      (normalized_middle i rest ++ [lastx]) parsed ->
    label_positions i parsed.
Proof.
  induction rest as [|x rest IH]; intros i n parsed Hvalid Hp.
  - inversion Hp as [|? ? ? e es _ Hes]; subst. by inversion Hes.
  - destruct rest as [|y rest].
    + inversion Hp as [|? ? ? e es _ Hes]; subst. by inversion Hes.
    + rewrite normalized_middle_cons in Hp. destruct Hvalid as [Hx Hvalid].
      remember (if (i mod 2 =? 1)%nat then wrap_labels x else x) as x' eqn:Hx'.
      inversion Hp as [|? ? ? e es He Hes]; subst.
      pose proof (IH (S i) (S n) es Hvalid Hes) as Hrest.
      assert (exists e' es', es = e' :: es') as (e' & es' & ->).
      { apply parsed_from_length in Hes. rewrite length_app in Hes.
        destruct es; [simpl in Hes; lia | by eauto]. }
      split; [|exact Hrest].
      intros Hi. rewrite (proj2 (Nat.eqb_eq _ _) Hi) in He.
      destruct fuel as [|fuel]; [done|].
      simpl in He. unfold LiteralExpression_parse in He.
      match type of He with context [negb ?b] => destruct b end; [|done].
      injection He as <-. destruct (Hx Hi) as [Hne HF].
      by do 3 eexists.
Qed.

Lemma MatchExpression_compile_loop_cons {Env : Type} i
    (arg x : CompiledExpression Env) rest inputs outs :
  MatchExpression_compile_loop i (arg :: x :: rest) inputs outs
  = if (i mod 2 =? 1)%nat then
      match expression arg with
      | LiteralExpression _ _ _ =>
          MatchExpression_compile_loop (S i) (x :: rest)
            (inputs ++ [expression arg]) outs
      | LambdaExpression _ _ _ _ => CompileError "AssertionError"
      end
    else
      MatchExpression_compile_loop (S i) (x :: rest) inputs
        (outs ++ [arrow (js arg)]).
Proof. done. Qed.

Lemma MatchExpression_compile_loop_succeeds {Env : Type}
    (rest : list (CompiledExpression Env)) :
  forall i inputs outs,
    label_positions i (expression <$> rest) ->
    exists inputs' outs',
      MatchExpression_compile_loop i rest inputs outs
      = Compiled (inputs ++ inputs', outs') /\
      Forall valid_label_node inputs'.
Proof.
  induction rest as [|arg rest IH]; intros i ins outs Hpos.
  - exists [], outs. by rewrite app_nil_r.
  - destruct rest as [|x rest].
    + exists [], outs. by rewrite app_nil_r.
    + rewrite !fmap_cons in Hpos. destruct Hpos as [Harg Hpos].
      rewrite MatchExpression_compile_loop_cons.
      destruct (decide (i mod 2 = 1)) as [Hi|Hi].
      * rewrite (proj2 (Nat.eqb_eq _ _) Hi).
        destruct (Harg Hi) as (k & t & values & He & Hne & HF).
        destruct (IH (S i) (ins ++ [LiteralExpression k t (RArray values)])
                    outs Hpos) as (ins' & outs' & Hloop & Hins').
        exists (LiteralExpression k t (RArray values) :: ins'), outs'.
        split.
        -- rewrite He. cbv iota. rewrite Hloop. by rewrite <- app_assoc.
        -- constructor; [by do 3 eexists | done].
      * rewrite (proj2 (Nat.eqb_neq _ _) Hi). apply IH, Hpos.
Qed.

(** X12.  A [match] application that parses also compiles: whatever the
    compiled forms of its children are, the assertions of [compile] hold,
    because every node at a label position is a literal holding a
    non-empty array of values whose [typeof] is not ["object"]. *)
Theorem parsed_match_compiles {Env : Type}
    (fuel : nat) (args : list Raw) (context : ParsingContext)
    (node : Expression) (cargs : list (CompiledExpression Env)) :
  definitions context !! "match" = Some MatchExpression ->
  parseExpression fuel (RArray (RString "match" :: args)) context = Ok node ->
  exists children,
    node = LambdaExpression MatchExpression (key context)
             (getType MatchExpression) children /\
    (expression <$> cargs = children ->
     exists inputs outs m,
       MatchExpression_branches cargs = Compiled (inputs, outs) /\
       MatchExpression_compile cargs = Compiled m /\
       Forall valid_label_node inputs).
Proof.
  intros Hm H. destruct fuel as [|fuel]; [done|].
  rewrite parseExpression_match in H by done.
  unfold MatchExpression_parse in H.
  destruct (length args <? 2)%nat eqn:Hlen; [done|].
  apply Nat.ltb_ge in Hlen.
  destruct (MatchExpression_parse_loop _ _ _ _) as [out| |] eqn:Hloop;
    cbn [bind] in H; try done.
  pose proof (MatchExpression_parse_loop_labels_valid _ _ _ _ _ Hloop)
    as Hvalid.
  apply MatchExpression_parse_loop_ok in Hloop as ->.
  apply LambdaExpression_parse_ok in H as (parsed & Hp & ->).
  exists parsed. split; [done|]. intros Hexp.
  rewrite <- app_assoc in Hp. cbn [app] in Hp.
  inversion Hp as [|? ? ? e0 es _ Hes]; subst.
  pose proof (parsed_from_label_positions _ _ _ _ _ _ _ _ Hvalid Hes) as Hpos.
  destruct cargs as [|c0 crest]; [done|].
  rewrite fmap_cons in Hexp. injection Hexp as _ Hrest. subst es.
  destruct (MatchExpression_compile_loop_succeeds crest 1 [] [] Hpos)
    as (inputs & outs & Hcl & Hinputs).
  cbn [app] in Hcl.
  assert (exists otherwise, last (c0 :: crest) = Some otherwise)
    as [otherwise Hlast].
  { destruct (last (c0 :: crest)) eqn:E; [by eauto|].
    by apply last_None in E. }
  assert (MatchExpression_branches (c0 :: crest)
          = Compiled (inputs, outs ++ [arrow (js otherwise)])) as Hb.
  { unfold MatchExpression_branches.
    change (drop 1 (c0 :: crest)) with crest. by rewrite Hcl, Hlast. }
  destruct (MatchExpression_inputMap_loop_succeeds inputs) with (i := 0)
    (m := (∅ : gmap string nat)) as [map Hmap].
  { eapply Forall_impl; [exact Hinputs|].
    intros e (k & t & values & -> & _). by eexists. }
  exists inputs, (outs ++ [arrow (js otherwise)]),
    (mkMatchJS (outs ++ [arrow (js otherwise)]) map (js c0)).
  repeat split; try done.
  unfold MatchExpression_compile. cbn [lookup list_lookup].
  rewrite Hb. unfold MatchExpression_inputMap. by rewrite Hmap.
Qed.

Lemma parsed_match_compiles_witness :
  exists inputs outs m,
    MatchExpression_branches
      [compiled_input; compiled_literal "2" (RArray [RNumber 1]);
       compiled_literal "3" (RString "a"); compiled_literal "4" (RString "b")]
    = Compiled (inputs, outs) /\
    MatchExpression_compile
      [compiled_input; compiled_literal "2" (RArray [RNumber 1]);
       compiled_literal "3" (RString "a"); compiled_literal "4" (RString "b")]
    = Compiled m /\
    Forall valid_label_node inputs.
Proof.
  destruct (parsed_match_compiles 3
              [RArray [RString "get"; RString "x"]; RArray [RNumber 1];
               RString "a"; RString "b"]
              example_context example_match_node
              [compiled_input; compiled_literal "2" (RArray [RNumber 1]);
               compiled_literal "3" (RString "a");
               compiled_literal "4" (RString "b")])
    as (children & Hnode & Hcompile).
  - reflexivity.
  - by vm_compute.
  - apply Hcompile. by injection Hnode as <-.
Defined.

(** ** The drafts of the second source part *)

Lemma draft_loop_Forall2 self op context args :
  forall parsedArgs out,
    Part001.LambdaExpression_parse_loop self op context parsedArgs args
      = Ok out ->
    exists parsed,
      out = parsedArgs ++ parsed /\
      Forall2 (fun arg e =>
                 exists c, definitions c = definitions context /\
                           self arg c = Ok e) args parsed.
Proof.
  induction args as [|arg rest IH]; intros acc out; simpl.
  - intros [= <-]. exists []. by rewrite app_nil_r.
  - destruct (self arg (concat context (S (length acc)) (Some op)))
      as [e| |] eqn:He; cbn [bind]; try done.
    intros (parsed & -> & HF)%IH. exists (e :: parsed).
    rewrite <- app_assoc. split; [done|].
    constructor; [|done]. eexists. split; [|exact He]. done.
Qed.

Lemma draft_parse_Forall2 self this args context node :
  Part001.LambdaExpression_parse self this args context = Ok node ->
  exists parsed,
    node = Part001.LambdaExpression this (key context) (getType this) parsed /\
    Forall2 (fun arg e =>
               exists c, definitions c = definitions context /\
                         self arg c = Ok e) args parsed.
Proof.
  unfold Part001.LambdaExpression_parse.
  destruct (Part001.LambdaExpression_parse_loop _ _ _ _ _)
    as [out| |] eqn:Hl; cbn [bind]; try done.
  apply draft_loop_Forall2 in Hl as (parsed & -> & HF).
  intros [= <-]. by exists parsed.
Qed.

Lemma draft_serialize_lambda type_name withTypes cls k t args raws :
  Forall2 (fun e r => Part001.serialize type_name withTypes e = Some r)
          args raws ->
  Part001.serialize type_name withTypes (Part001.LambdaExpression cls k t args)
  = Some (RArray
            (RString (getName cls +:+
                      (if withTypes
                       then ": " +:+ serialized_type_name type_name t
                       else ""))
             :: raws)).
Proof.
  intros HF. cbn [Part001.serialize].
  match goal with
  | |- match ?m args with _ => _ end = _ =>
      assert (m args = Some raws) as ->; [|done]
  end.
  induction HF as [|e r es rs He _ IH]; [done|]. by rewrite He, IH.
Qed.

Lemma draft_args_serialize type_name fuel context (g : Raw -> Raw)
    args parsed :
  (forall arg c e,
     definitions c = definitions context ->
     Part001.parseExpression fuel arg c = Ok e ->
     Part001.serialize type_name false e = Some (g arg)) ->
  Forall2 (fun arg e =>
             exists c, definitions c = definitions context /\
                       Part001.parseExpression fuel arg c = Ok e)
          args parsed ->
  Forall2 (fun e r => Part001.serialize type_name false e = Some r)
          parsed (List.map g args).
Proof.
  intros H HF.
  induction HF as [|arg e args parsed (c & Hc & He) _ IH]; simpl;
    constructor; eauto.
Qed.

Lemma draft_normalize_match defs name cls args :
  String.eqb name "literal" = false ->
  defs !! name = Some cls ->
  parse_kind cls = MatchParse ->
  draft_normalize defs (RArray (RString name :: args))
  = RArray (RString name :: draft_normalize_match_args defs 0 args).
Proof.
  intros Hn Hd Hk. cbn [draft_normalize]. rewrite Hn, Hd, Hk. f_equal. f_equal.
  match goal with
  | |- ?go 0 args = _ =>
      assert (H : forall i, go i args = draft_normalize_match_args defs i args)
  end; [|apply H].
  induction args as [|x [|y rest] IH]; intros i; try done.
  cbn [draft_normalize_match_args]. f_equal. apply IH.
Qed.

Lemma draft_normalize_match_args_cons defs i x y rest :
  draft_normalize_match_args defs i (x :: y :: rest)
  = (if (i mod 2 =? 1)%nat then wrap_labels x else draft_normalize defs x)
    :: draft_normalize_match_args defs (S i) (y :: rest).
Proof. done. Qed.

Lemma normalized_middle_draft_normalize defs :
  forall rest i x,
    List.map (draft_normalize defs)
      (normalized_middle i (x :: rest) ++ [default RUndefined (last (x :: rest))])
    = draft_normalize_match_args defs i (x :: rest).
Proof.
  induction rest as [|y rest IH]; intros i x; [done|].
  rewrite normalized_middle_cons, draft_normalize_match_args_cons,
    last_cons_cons.
  rewrite <- app_comm_cons. cbn [List.map]. rewrite IH.
  by destruct (i mod 2 =? 1)%nat.
Qed.

Lemma draft_normalize_id defs expr :
  default_parse_only defs -> draft_normalize defs expr = expr.
Proof.
  intros Hdef.
  induction expr as [| |s|b|n|r g b a|items IH|props] using Raw_ind_items;
    try done.
  destruct items as [|op args]; [done|].
  destruct op as [| |name| | | | |]; try done.
  cbn [draft_normalize].
  destruct (String.eqb name "literal"); [done|].
  destruct (defs !! name) as [cls|] eqn:Hcls; [|done].
  rewrite (Hdef _ _ Hcls). do 2 f_equal.
  apply Forall_cons in IH as [_ IH].
  induction IH as [|x l Hx _ IHl]; [done|]. simpl. by rewrite Hx, IHl.
Qed.

Lemma first_draft_serialize_normal type_name fuel :
  forall expr context node,
    registry_consistent (definitions context) ->
    Part001.parseExpression fuel expr context = Ok node ->
    Part001.serialize type_name false node
    = Some (draft_normalize (definitions context) expr).
Proof.
  induction fuel as [|fuel IH]; intros expr context node Hreg; [done|].
  assert (IH' : forall arg c e,
            definitions c = definitions context ->
            Part001.parseExpression fuel arg c = Ok e ->
            Part001.serialize type_name false e
            = Some (draft_normalize (definitions context) arg)).
  { intros e ctx nd Hd He. rewrite <- Hd. apply IH; [by rewrite Hd | done]. }
  simpl. unfold Part001.parseExpression_body.
  destruct expr as [| |s|b|n|r g b a|items|props]; try done;
    try (by intros [= <-]).
  destruct items as [|op args]; [done|].
  cbn [lookup list_lookup default id].
  destruct op as [| |name| | | | |]; try done.
  destruct (String.eqb name "literal") eqn:Hname.
  - apply String.eqb_eq in Hname as ->.
    destruct args as [|a [|]]; try done.
    cbn [length Nat.eqb negb lookup list_lookup default id].
    destruct a; try done; by intros [= <-].
  - destruct (definitions context !! name) as [Expr|] eqn:Hdef; [|done].
    pose proof (Hreg _ _ Hdef) as Hgn.
    cbn [drop]. rewrite drop_0. unfold Part001.ExprClass_parse.
    destruct (parse_kind Expr) eqn:Hkind.
    + intros (parsed & -> & HF)%draft_parse_Forall2.
      rewrite (draft_serialize_lambda _ _ _ _ _ _ _
                 (draft_args_serialize _ _ _ _ _ _ IH' HF)).
      rewrite append_empty_r, Hgn.
      cbn [draft_normalize]. by rewrite Hname, Hdef, Hkind.
    + unfold Part001.MatchExpression_parse.
      destruct (length args <? 2)%nat eqn:Hlen; [done|].
      apply Nat.ltb_ge in Hlen.
      destruct (MatchExpression_parse_loop _ _ _ _) as [out| |] eqn:Hloop;
        cbn [bind]; try done.
      apply MatchExpression_parse_loop_ok in Hloop as ->.
      intros (parsed & -> & HF)%draft_parse_Forall2.
      rewrite (draft_serialize_lambda _ _ _ _ _ _ _
                 (draft_args_serialize _ _ _ _ _ _ IH' HF)).
      rewrite append_empty_r, Hgn.
      rewrite (draft_normalize_match _ _ _ _ Hname Hdef Hkind).
      do 3 f_equal.
      destruct args as [|arg0 [|x rest]]; simpl in Hlen; try lia.
      change (drop 1 (arg0 :: x :: rest)) with (x :: rest).
      rewrite last_cons_cons.
      cbn [lookup list_lookup default id app List.map].
      rewrite normalized_middle_draft_normalize.
      by rewrite draft_normalize_match_args_cons.
Qed.

(** X13.  In the draft with [PrimitiveLiteral], [ArrayLiteral] and
    [ObjectLiteral], under a registry that files each operator under its
    own name, serializing without type annotations the tree parsed from an
    accepted expression never throws and gives the expression back, except
    that each label argument of a [match] application comes back as
    [["literal", labels]]; when no operator of the registry overrides the
    default parse the expression comes back exactly. *)
Theorem first_draft_round_trip
    (type_name : Ty -> string) (fuel : nat) (expr : Raw)
    (context : ParsingContext) (node : Part001.Expression) :
  registry_consistent (definitions context) ->
  Part001.parseExpression fuel expr context = Ok node ->
  Part001.serialize type_name false node
    = Some (draft_normalize (definitions context) expr) /\
  (default_parse_only (definitions context) ->
   Part001.serialize type_name false node = Some expr).
Proof.
  intros Hreg Hp.
  pose proof (first_draft_serialize_normal type_name _ _ _ _ Hreg Hp) as H.
  split; [done|]. intros Hd. by rewrite H, draft_normalize_id.
Qed.

Lemma first_draft_round_trip_witness :
  Part001.serialize (fun _ => "") false
    (Part001.LambdaExpression get_class "" (getType get_class)
       [Part001.Literal Part001.PrimitiveLiteral "1" (Some StringType)
          (RString "x");
        Part001.Literal Part001.ArrayLiteral "2.1"
          (Some (array NumberType (Some 2))) (RArray [RNumber 1; RNumber 2])])
  = Some (RArray [RString "get"; RString "x";
                  RArray [RString "literal";
                          RArray [RNumber 1; RNumber 2]]]).
Proof.
  refine (proj2 (first_draft_round_trip (fun _ => "") 2
                   (RArray [RString "get"; RString "x";
                            RArray [RString "literal";
                                    RArray [RNumber 1; RNumber 2]]])
                   (ParsingContext_new (<["get" := get_class]> ∅) [] [])
                   _ _ _) _).
  - intros name cls H. cbn [definitions ParsingContext_new] in H.
    rewrite lookup_insert_Some in H. destruct H as [[<- <-]|[_ H]]; [done|].
    by rewrite lookup_empty in H.
  - by vm_compute.
  - intros name cls H. cbn [definitions ParsingContext_new] in H.
    rewrite lookup_insert_Some in H. destruct H as [[<- <-]|[_ H]]; [done|].
    by rewrite lookup_empty in H.
Defined.

Lemma draft_loops_agree
    (selfC selfB : Raw -> ParsingContext -> Outcome Part001.Expression)
    op context args :
  (forall arg c,
     (forall node, selfC arg c = Ok node ->
                   selfB arg c = Ok (as_first_draft node)) /\
     (forall err, selfC arg c = Throw err ->
                  ParsingError_message err <> undefined_message ->
                  selfB arg c = Throw err)) ->
  forall acc,
    (forall out,
       Part001.LambdaExpression_parse_loop selfC op context acc args = Ok out ->
       Part001.LambdaExpression_parse_loop selfB op context
         (List.map as_first_draft acc) args
       = Ok (List.map as_first_draft out)) /\
    (forall err,
       Part001.LambdaExpression_parse_loop selfC op context acc args
         = Throw err ->
       ParsingError_message err <> undefined_message ->
       Part001.LambdaExpression_parse_loop selfB op context
         (List.map as_first_draft acc) args
       = Throw err).
Proof.
  intros Hself.
  induction args as [|arg rest IH]; intros acc; simpl.
  - split; [by intros out [= <-] | done].
  - rewrite length_map.
    destruct (Hself arg (concat context (S (length acc)) (Some op)))
      as [Hok Hthrow].
    destruct (selfC arg (concat context (S (length acc)) (Some op)))
      as [e| |] eqn:He; cbn [bind].
    + rewrite (Hok e eq_refl). cbn [bind].
      destruct (IH (acc ++ [e])) as [IHok IHthrow].
      rewrite map_app in IHok, IHthrow. done.
    + split; [done|]. intros err [= <-] Hmsg.
      by rewrite (Hthrow e eq_refl Hmsg).
    + done.
Qed.

Lemma draft_default_parses_agree
    (selfC selfB : Raw -> ParsingContext -> Outcome Part001.Expression)
    this args context :
  (forall arg c,
     (forall node, selfC arg c = Ok node ->
                   selfB arg c = Ok (as_first_draft node)) /\
     (forall err, selfC arg c = Throw err ->
                  ParsingError_message err <> undefined_message ->
                  selfB arg c = Throw err)) ->
  (forall node,
     Part001.LambdaExpression_parse selfC this args context = Ok node ->
     Part001.LambdaExpression_parse selfB this args context
     = Ok (as_first_draft node)) /\
  (forall err,
     Part001.LambdaExpression_parse selfC this args context = Throw err ->
     ParsingError_message err <> undefined_message ->
     Part001.LambdaExpression_parse selfB this args context = Throw err).
Proof.
  intros Hself. unfold Part001.LambdaExpression_parse.
  destruct (draft_loops_agree selfC selfB (getName this) context args Hself [])
    as [Hok Hthrow].
  cbn [List.map] in Hok, Hthrow.
  destruct (Part001.LambdaExpression_parse_loop selfC _ _ _ _)
    as [out| |] eqn:Hl; cbn [bind].
  - rewrite (Hok out eq_refl). cbn [bind]. split; [|done].
    by intros node [= <-].
  - split; [done|]. intros err [= <-] Hmsg.
    by rewrite (Hthrow e eq_refl Hmsg).
  - done.
Qed.

Lemma draft_class_parses_agree
    (selfC selfB : Raw -> ParsingContext -> Outcome Part001.Expression)
    Expr args context :
  (forall arg c,
     (forall node, selfC arg c = Ok node ->
                   selfB arg c = Ok (as_first_draft node)) /\
     (forall err, selfC arg c = Throw err ->
                  ParsingError_message err <> undefined_message ->
                  selfB arg c = Throw err)) ->
  (forall node,
     Part001.ExprClass_parse selfC Expr args context = Ok node ->
     Part001.ExprClass_parse selfB Expr args context
     = Ok (as_first_draft node)) /\
  (forall err,
     Part001.ExprClass_parse selfC Expr args context = Throw err ->
     ParsingError_message err <> undefined_message ->
     Part001.ExprClass_parse selfB Expr args context = Throw err).
Proof.
  intros Hself. unfold Part001.ExprClass_parse, Part001.MatchExpression_parse.
  destruct (parse_kind Expr).
  - by apply draft_default_parses_agree.
  - destruct (length args <? 2)%nat; [done|].
    destruct (MatchExpression_parse_loop _ _ _ _) as [out| |];
      cbn [bind]; [|done|done].
    by apply draft_default_parses_agree.
Qed.

(** X14.  The two drafts of the second source part agree wherever the
    draft with a plain [LiteralExpression] does not report an [undefined]:
    when it accepts an expression, the other draft accepts it too and
    builds the same tree, with the same keys, types and values, its
    literal nodes being instances of [PrimitiveLiteral], [ArrayLiteral]
    or [ObjectLiteral]; when it fails with any error other than the one
    about [undefined], the other draft fails with the same error at the
    same key. *)
Theorem drafts_agree (fuel : nat) (expr : Raw) (context : ParsingContext) :
  (forall node,
     Part001.Plain.parseExpression fuel expr context = Ok node ->
     Part001.parseExpression fuel expr context = Ok (as_first_draft node)) /\
  (forall err,
     Part001.Plain.parseExpression fuel expr context = Throw err ->
     ParsingError_message err <> undefined_message ->
     Part001.parseExpression fuel expr context = Throw err).
Proof.
  revert expr context.
  induction fuel as [|fuel IH]; intros expr context; [done|].
  simpl. unfold Part001.Plain.parseExpression_body,
    Part001.parseExpression_body.
  destruct expr as [| |s|b|n|r g b a|items|props];
    try (split; [by intros node [= <-] | done]).
  - split; [done|]. by intros err [= <-].
  - destruct items as [|op args]; [done|].
    cbn [lookup list_lookup default id].
    destruct op as [| |name| | | | |]; try done.
    destruct (String.eqb name "literal").
    + destruct args as [|a [|]]; try done.
      cbn [length Nat.eqb negb lookup list_lookup default id].
      destruct a; try done; split; try done; by intros node [= <-].
    + destruct (definitions context !! name) as [Expr|]; [|done].
      by apply draft_class_parses_agree.
Qed.

Lemma drafts_agree_witness :
  Part001.parseExpression 3 example_match example_context
  = Ok (Part001.LambdaExpression MatchExpression "" (getType MatchExpression)
          [Part001.LambdaExpression get_class "1" (getType get_class)
             [Part001.Literal Part001.PrimitiveLiteral "1.1"
                (Some StringType) (RString "x")];
           Part001.Literal Part001.ArrayLiteral "2.1"
             (Some (array NumberType (Some 1))) (RArray [RNumber 1]);
           Part001.Literal Part001.PrimitiveLiteral "3" (Some StringType)
             (RString "a");
           Part001.Literal Part001.PrimitiveLiteral "4" (Some StringType)
             (RString "b")]) /\
  Part001.parseExpression 2
    (RArray [RString "get"; RArray [RString "literal"; RNumber 5]])
    example_context
  = throw "1.1"
      "Expected argument to 'literal' to be an array or object, but found number instead.".
Proof.
  split.
  - apply (proj1 (drafts_agree 3 example_match example_context)
             (Part001.LambdaExpression MatchExpression ""
                (getType MatchExpression)
                [Part001.LambdaExpression get_class "1" (getType get_class)
                   [Part001.Literal Part001.LiteralExpression "1.1"
                      (Some StringType) (RString "x")];
                 Part001.Literal Part001.LiteralExpression "2.1"
                   (Some (array NumberType (Some 1))) (RArray [RNumber 1]);
                 Part001.Literal Part001.LiteralExpression "3"
                   (Some StringType) (RString "a");
                 Part001.Literal Part001.LiteralExpression "4"
                   (Some StringType) (RString "b")])).
    by vm_compute.
  - apply (proj2 (drafts_agree 2
                    (RArray [RString "get";
                             RArray [RString "literal"; RNumber 5]])
                    example_context)).
    + by vm_compute.
    + by vm_compute.
Defined.

Lemma draft_Expression_ind_args (P : Part001.Expression -> Prop) :
  (forall cls key type value, P (Part001.Literal cls key type value)) ->
  (forall cls key type args,
     Forall P args -> P (Part001.LambdaExpression cls key type args)) ->
  forall e, P e.
Proof.
  intros Hlit Hlam.
  fix IH 1.
  intros [cls key type value|cls key type args]; [apply Hlit|].
  apply Hlam. induction args as [|a args IHargs]; constructor;
    [apply IH | exact IHargs].
Qed.

Lemma plain_literals_args cls key type args :
  plain_literals (Part001.LambdaExpression cls key type args) <->
  Forall plain_literals args.
Proof.
  cbn [plain_literals].
  induction args as [|a rest IH].
  - split; [constructor | done].
  - rewrite Forall_cons, <- IH. done.
Qed.

Lemma plain_draft_literals fuel :
  forall expr context node,
    Part001.Plain.parseExpression fuel expr context = Ok node ->
    plain_literals node.
Proof.
  induction fuel as [|fuel IH]; intros expr context node; [done|].
  simpl. unfold Part001.Plain.parseExpression_body.
  destruct expr as [| |s|b|n|r g b a|items|props]; try done;
    try (by intros [= <-]).
  destruct items as [|op args]; [done|].
  cbn [lookup list_lookup default id].
  destruct op as [| |name| | | | |]; try done.
  destruct (String.eqb name "literal").
  - destruct args as [|a [|]]; try done.
    cbn [length Nat.eqb negb lookup list_lookup default id].
    destruct a; try done; by intros [= <-].
  - destruct (definitions context !! name) as [Expr|]; [|done].
    assert (forall l,
              Part001.LambdaExpression_parse
                (Part001.Plain.parseExpression fuel) Expr l context = Ok node ->
              plain_literals node) as Hdefault.
    { intros l (parsed & -> & HF)%draft_parse_Forall2.
      apply plain_literals_args.
      induction HF as [|arg e l' parsed (c & _ & He) _ IHF];
        constructor; eauto. }
    unfold Part001.ExprClass_parse, Part001.MatchExpression_parse.
    destruct (parse_kind Expr); [apply Hdefault|].
    destruct (length _ <? 2)%nat; [done|].
    destruct (MatchExpression_parse_loop _ _ _ _) as [out| |];
      cbn [bind]; [|done|done].
    apply Hdefault.
Qed.

Lemma plain_literals_serialize type_name withTypes node :
  plain_literals node ->
  Part001.serialize type_name withTypes node = None <->
  has_literal node = true.
Proof.
  induction node as [cls key type value|cls key type args IH]
    using draft_Expression_ind_args.
  - cbn [plain_literals]. intros ->. done.
  - intros Hplain%plain_literals_args.
    cbn [Part001.serialize has_literal].
    match goal with
    | |- match ?m args with _ => _ end = _ <-> _ =>
        assert (m args = None <-> existsb has_literal args = true) as Hargs
    end.
    { induction args as [|a rest IHrest]; [done|].
      apply Forall_cons in IH as [IHa IH].
      apply Forall_cons in Hplain as [Ha Hrest].
      specialize (IHrest IH Hrest). specialize (IHa Ha).
      cbn [existsb]. rewrite orb_true_iff, <- IHa, <- IHrest.
      destruct (Part001.serialize type_name withTypes a) as [x|].
      - match goal with
        | |- match ?m with _ => _ end = _ <-> _ => destruct m
        end.
        + split; [done | intros [?|?]; done].
        + split; [by right | done].
      - split; [by left | done]. }
    rewrite <- Hargs.
    match goal with
    | |- match ?m with _ => _ end = _ <-> _ => destruct m
    end; done.
Qed.

(** X15.  In the draft where a literal is a plain [LiteralExpression],
    which has no [serialize] of its own, serializing a parsed tree throws
    the [Unimplemented] error of [BaseExpression] exactly when the tree
    contains a literal node: only trees made of operator applications
    alone can be serialized, with or without type annotations. *)
Theorem plain_draft_serialize_unimplemented
    (type_name : Ty -> string) (withTypes : bool) (fuel : nat) (expr : Raw)
    (context : ParsingContext) (node : Part001.Expression) :
  Part001.Plain.parseExpression fuel expr context = Ok node ->
  Part001.serialize type_name withTypes node = None <->
  has_literal node = true.
Proof.
  intros Hp. eapply plain_literals_serialize, plain_draft_literals, Hp.
Qed.

Lemma plain_draft_serialize_unimplemented_witness :
  Part001.serialize (fun _ => "") false
    (Part001.LambdaExpression get_class "" (getType get_class)
       [Part001.Literal Part001.LiteralExpression "1" (Some StringType)
          (RString "x")])
  = None.
Proof.
  apply (plain_draft_serialize_unimplemented (fun _ => "") false 2
           (RArray [RString "get"; RString "x"]) example_context).
  - by vm_compute.
  - by vm_compute.
Defined.
